(** * kit: the task graph supervisor of [main.go]

    A shallow embedding of the supervisor that [main] builds: the status
    table, the downstream-release step [maybeStartDownstream], the
    once-per-second termination check, the watch loop, the per-task runner
    goroutine and the final error scan.

    Goroutines are modelled as threads of a labelled transition system
    ([step]); every label is one atomic action of one goroutine, and the
    answers of the outside world (what [Skip] returns, how the child process
    ends, which file-system event arrives) are part of the label. *)

From Stdlib Require Import ZArith.
From stdpp Require Import gmap strings list fin_maps pretty.

Open Scope string_scope.

(** ** Data model *)

(** Modelled from the spec: the [backoff] type and [defaultBackoff] are
    declared in a file of package main that is not part of the sources at
    hand.  The spec gives the value object {duration, cap}, the successor
    [duration' = min(duration*2, cap)] and the default of one second capped
    at sixty.  Durations are [time.Duration] nanoseconds. *)
Record backoff := { Duration : Z; cap : Z }.

Definition second : Z := 1000000000.

Definition defaultBackoff : backoff := {| Duration := second; cap := 60 * second |}.

Definition next (b : backoff) : backoff :=
  {| Duration := Z.min (2 * Duration b) (cap b); cap := cap b |}.

(** [type taskStatus struct { reason string; backoff backoff }] *)
Record taskStatus := { reason : string; backoff_ : backoff }.

(** [types.Task].  The fields [Name], [Dependencies], [Watch], [Mutex] and
    [Semaphore] are read directly by [main].  The methods [IsBackground],
    [IsRestart], [GetRestartPolicy] and [GetReadinessProbe] live in package
    [internal/types], which is not part of the sources at hand: a task
    carries the value each of them returns for it, so every result below
    holds whatever those methods compute. *)
Record Task := {
  Name : string;
  Dependencies : list string;
  Watch : list string;
  Mutex : string;
  Semaphore : string;
  IsBackground : bool;
  IsRestart : bool;
  GetRestartPolicy : string;
  HasReadinessProbe : bool
}.

(** [types.Tasks]: the tasks in declaration order. *)
Definition Tasks := list Task.

Definition zeroTask : Task :=
  {| Name := ""; Dependencies := []; Watch := []; Mutex := ""; Semaphore := "";
     IsBackground := false; IsRestart := false; GetRestartPolicy := "";
     HasReadinessProbe := false |}.

(** ** TaskGraph operations *)

(** Modelled from the spec: [Tasks.Get] is not part of the sources at hand;
    "get(name): direct lookup".  For a name that is absent the zero [Task]
    is returned; [main] consults [Get] only for names that have a status
    record. *)
Definition Get (tasks : Tasks) (name : string) : Task :=
  default zeroTask (List.find (fun t => Name t =? name) tasks).

(** Modelled from the spec: [Tasks.GetLeaves] is not part of the sources at
    hand; "leaves(): returns tasks with no in-graph dependencies". *)
Definition GetLeaves (tasks : Tasks) : Tasks :=
  List.filter
    (fun t => forallb (fun d => negb (existsb (fun u => Name u =? d) tasks))
                      (Dependencies t))
    tasks.

(** Modelled from the spec: [Tasks.GetDownstream] is not part of the sources
    at hand; "downstream(name): returns tasks whose dependencies include
    name". *)
Definition GetDownstream (tasks : Tasks) (name : string) : Tasks :=
  List.filter (fun t => existsb (fun d => d =? name) (Dependencies t)) tasks.

(** Modelled from the spec: [Tasks.All] and [Tasks.Any] are not part of the
    sources at hand; "all(pred), any(pred): universal/existential
    quantifiers over the subgraph". *)
Definition All (tasks : Tasks) (pred : Task -> bool) : bool := forallb pred tasks.
Definition Any (tasks : Tasks) (pred : Task -> bool) : bool := existsb pred tasks.

(** ** StatusTable

    [statuses := sync.Map{}] from task name to [*taskStatus].  Entries are
    stored once, before anything runs, and never replaced: the pointer a
    runner holds and the pointer in the map are the same object, so a write
    through the runner's pointer is an update of the map entry. *)
Definition initStatuses (tasks : Tasks) : gmap string taskStatus :=
  fold_left
    (fun m t => <[Name t := {| reason := "waiting"; backoff_ := defaultBackoff |}]> m)
    tasks ∅.

Definition setReason (name r : string) (m : gmap string taskStatus)
  : gmap string taskStatus :=
  alter (fun st => {| reason := r; backoff_ := backoff_ st |}) name m.

Definition setBackoff (name : string) (f : backoff -> backoff)
  (m : gmap string taskStatus) : gmap string taskStatus :=
  alter (fun st => {| reason := reason st; backoff_ := f (backoff_ st) |}) name m.

(** ** Downstream release: [maybeStartDownstream] *)

(** One round of the inner loop over [downstream.Dependencies]. *)
Definition upstreamStep (tasks : Tasks) (statuses : gmap string taskStatus)
  (fulfilled : bool) (upstream : string) : bool :=
  match statuses !! upstream with
  | Some status =>
      fulfilled &&
      ((reason status =? "success") ||
       (reason status =? "running") && IsBackground (Get tasks upstream))
  | None => false
  end.

Definition fulfilled (tasks : Tasks) (statuses : gmap string taskStatus)
  (downstream : Task) : bool :=
  fold_left (upstreamStep tasks statuses) (Dependencies downstream) true.

(** The tasks sent on the work channel, in the order of the sends.  [done]
    says whether [ctx.Done()] is closed when the [select] is evaluated. *)
Definition maybeStartDownstream (done : bool) (tasks : Tasks)
  (statuses : gmap string taskStatus) (name : string) : list Task :=
  if done then []
  else List.filter (fulfilled tasks statuses) (GetDownstream tasks name).

(** ** The once-per-second termination check *)

Definition allComplete (tasks : Tasks) (statuses : gmap string taskStatus) : bool :=
  All tasks (fun task =>
    match statuses !! Name task with
    | Some status =>
        negb (IsBackground task) &&
        ((reason status =? "success") || (reason status =? "error"))
    | None => false
    end).

Definition anyError (tasks : Tasks) (statuses : gmap string taskStatus) : bool :=
  Any tasks (fun task =>
    match statuses !! Name task with
    | Some status => (GetRestartPolicy task =? "Never") && (reason status =? "error")
    | None => false
    end).

(** ** Startup validation and the final error scan *)

Record Pod := {
  ApiVersion : string;
  Kind : string;
  MetadataName : string;
  SpecTasks : Tasks;
  SpecSemaphores : gmap string nat
}.

(** What [os.ReadFile] followed by [yaml.UnmarshalStrict] delivers. *)
Inductive loaded :=
  | ReadFailed (err : string)
  | UnmarshalFailed (err : string)
  | Parsed (pod : Pod).

(** The checks at the head of the closure that [main] runs: [inl] is the
    error it returns. *)
Definition startup (cfg : loaded) : string + Pod :=
  match cfg with
  | ReadFailed err => inl err
  | UnmarshalFailed err => inl err
  | Parsed pod =>
      if negb (ApiVersion pod =? "kit/v1") then inl "invalid apiVersion, must be 'kit/v1"
      else if negb (Kind pod =? "Tasks") then inl "invalid kind, must be 'Tasks'"
      else if MetadataName pod =? "" then inl "metadata.name is required"
      else inr pod
  end.

(** The loop after [wg.Wait()]: the first task in error with restart policy
    Never makes the closure return an error. *)
Fixpoint finalScan (tasks : Tasks) (statuses : gmap string taskStatus) : option string :=
  match tasks with
  | [] => None
  | task :: rest =>
      match statuses !! Name task with
      | Some v =>
          if (reason v =? "error") && (GetRestartPolicy task =? "Never")
          then Some (Name task ++ " errored")
          else finalScan rest statuses
      | None => finalScan rest statuses
      end
  end.

(** The closure [err := func() error { ... }()] as a whole.  [neededFor]
    stands for [pod.Spec.Tasks.NeededFor(args)], which is not part of the
    sources at hand, and [final] is the status table once [wg.Wait()] has
    returned. *)
Definition run (cfg : loaded) (neededFor : Tasks -> Tasks)
  (final : gmap string taskStatus) : option string :=
  match startup cfg with
  | inl err => Some err
  | inr pod => finalScan (neededFor (SpecTasks pod)) final
  end.

(** [if err != nil { ...; os.Exit(1) }], otherwise [main] returns. *)
Definition exitStatus (err : option string) : Z :=
  match err with Some _ => 1 | None => 0 end.

(** ** Threads of the supervisor *)

(** [fsnotify.Op] is a bit mask; [fsnotify.Chmod] is [1 << 4]. *)
Definition Op := Z.
Definition Create : Op := 1%Z.
Definition Write : Op := 2%Z.
Definition Remove : Op := 4%Z.
Definition Rename : Op := 8%Z.
Definition Chmod : Op := 16%Z.

Definition hour : Z := 3600 * second.

(** The watch goroutine of one dispatch.  [timer] is the duration the
    re-run timer is armed with, [None] once it has fired or was stopped. *)
Inductive wpc := WSetup | WLoop | WExited.

Record Watcher := {
  wTask : Task;
  wTok : nat;
  wPc : wpc;
  timer : option Z
}.

(** Where a runner goroutine stands. *)
Inductive pc :=
  | PcPreempt     (* before [stop.Load(name)] *)
  | PcMutex       (* before [mutex.Lock()] *)
  | PcSemaphore   (* before [semaphore.Acquire(ctx, 1)] *)
  | PcLoopHead    (* at the [select] that opens the [for] body *)
  | PcRunning     (* inside [prc.Run]: the child process is started *)
  | PcBackoff     (* at [if !terminating { ... time.Sleep ... }] *)
  | PcExited.     (* returned; the deferred releases have run *)

Record Runner := {
  rTask : Task;
  rTok : nat;        (* its [processCtx] *)
  rPc : pc;
  rStarts : nat;     (* how often it has entered [prc.Run] *)
  rMutex : bool;     (* a deferred [mutex.Unlock()] is pending *)
  rSem : bool        (* a deferred [semaphore.Release(1)] is pending *)
}.

Record Config := {
  tasks : Tasks;                    (* [pod.Spec.Tasks.NeededFor(args)] *)
  noWatch : bool;
  semaphoresCap : gmap string nat   (* [pod.Spec.Semaphores] *)
}.

(** Everything the goroutines share.  The work channel is unbuffered: [work]
    holds the sends that have been issued and not yet received.  The model
    lets a sender go on before its send is received, so it has every run of
    the program and some more.  In Go a send that is pending when the
    channel is closed panics; here it stays in [work], which the dispatch
    loop, ended by the close, no longer reads. *)
Record State := {
  statuses : gmap string taskStatus;
  rootDone : bool;            (* [ctx.Done()] is closed *)
  procDone : gset nat;        (* per-process tokens cancelled on their own *)
  terminating : bool;
  closed : bool;              (* [close(work)] has happened *)
  work : list Task;
  seeded : nat;               (* leaves the seeding goroutine has sent *)
  stop : gmap string nat;     (* [stop]: task name to [stopProcess] *)
  locked : gset string;       (* mutex labels that are held *)
  permits : gmap string nat;  (* free permits per semaphore label *)
  runners : list Runner;
  watchers : list Watcher
}.

Definition init (cfg : Config) : State :=
  {| statuses := initStatuses (tasks cfg); rootDone := false; procDone := ∅;
     terminating := false; closed := false; work := []; seeded := 0;
     stop := ∅; locked := ∅; permits := semaphoresCap cfg;
     runners := []; watchers := [] |}.

Definition set_statuses (f : gmap string taskStatus -> gmap string taskStatus)
  (s : State) : State :=
  {| statuses := f (statuses s); rootDone := rootDone s; procDone := procDone s;
     terminating := terminating s; closed := closed s; work := work s;
     seeded := seeded s; stop := stop s; locked := locked s;
     permits := permits s; runners := runners s; watchers := watchers s |}.

Definition set_rootDone (b : bool) (s : State) : State :=
  {| statuses := statuses s; rootDone := b; procDone := procDone s;
     terminating := terminating s; closed := closed s; work := work s;
     seeded := seeded s; stop := stop s; locked := locked s;
     permits := permits s; runners := runners s; watchers := watchers s |}.

Definition set_procDone (f : gset nat -> gset nat) (s : State) : State :=
  {| statuses := statuses s; rootDone := rootDone s; procDone := f (procDone s);
     terminating := terminating s; closed := closed s; work := work s;
     seeded := seeded s; stop := stop s; locked := locked s;
     permits := permits s; runners := runners s; watchers := watchers s |}.

Definition set_closing (s : State) : State :=
  {| statuses := statuses s; rootDone := rootDone s; procDone := procDone s;
     terminating := true; closed := true; work := work s;
     seeded := seeded s; stop := stop s; locked := locked s;
     permits := permits s; runners := runners s; watchers := watchers s |}.

Definition set_work (f : list Task -> list Task) (s : State) : State :=
  {| statuses := statuses s; rootDone := rootDone s; procDone := procDone s;
     terminating := terminating s; closed := closed s; work := f (work s);
     seeded := seeded s; stop := stop s; locked := locked s;
     permits := permits s; runners := runners s; watchers := watchers s |}.

Definition set_seeded (n : nat) (s : State) : State :=
  {| statuses := statuses s; rootDone := rootDone s; procDone := procDone s;
     terminating := terminating s; closed := closed s; work := work s;
     seeded := n; stop := stop s; locked := locked s;
     permits := permits s; runners := runners s; watchers := watchers s |}.

Definition set_stop (f : gmap string nat -> gmap string nat) (s : State) : State :=
  {| statuses := statuses s; rootDone := rootDone s; procDone := procDone s;
     terminating := terminating s; closed := closed s; work := work s;
     seeded := seeded s; stop := f (stop s); locked := locked s;
     permits := permits s; runners := runners s; watchers := watchers s |}.

Definition set_locked (f : gset string -> gset string) (s : State) : State :=
  {| statuses := statuses s; rootDone := rootDone s; procDone := procDone s;
     terminating := terminating s; closed := closed s; work := work s;
     seeded := seeded s; stop := stop s; locked := f (locked s);
     permits := permits s; runners := runners s; watchers := watchers s |}.

Definition set_permits (f : gmap string nat -> gmap string nat) (s : State) : State :=
  {| statuses := statuses s; rootDone := rootDone s; procDone := procDone s;
     terminating := terminating s; closed := closed s; work := work s;
     seeded := seeded s; stop := stop s; locked := locked s;
     permits := f (permits s); runners := runners s; watchers := watchers s |}.

Definition set_runners (f : list Runner -> list Runner) (s : State) : State :=
  {| statuses := statuses s; rootDone := rootDone s; procDone := procDone s;
     terminating := terminating s; closed := closed s; work := work s;
     seeded := seeded s; stop := stop s; locked := locked s;
     permits := permits s; runners := f (runners s); watchers := watchers s |}.

Definition set_watchers (f : list Watcher -> list Watcher) (s : State) : State :=
  {| statuses := statuses s; rootDone := rootDone s; procDone := procDone s;
     terminating := terminating s; closed := closed s; work := work s;
     seeded := seeded s; stop := stop s; locked := locked s;
     permits := permits s; runners := runners s; watchers := f (watchers s) |}.

Definition set_rPc (p : pc) (r : Runner) : Runner :=
  {| rTask := rTask r; rTok := rTok r; rPc := p; rStarts := rStarts r;
     rMutex := rMutex r; rSem := rSem r |}.

Definition set_rStarts (n : nat) (r : Runner) : Runner :=
  {| rTask := rTask r; rTok := rTok r; rPc := rPc r; rStarts := n;
     rMutex := rMutex r; rSem := rSem r |}.

Definition set_rMutex (b : bool) (r : Runner) : Runner :=
  {| rTask := rTask r; rTok := rTok r; rPc := rPc r; rStarts := rStarts r;
     rMutex := b; rSem := rSem r |}.

Definition set_rSem (b : bool) (r : Runner) : Runner :=
  {| rTask := rTask r; rTok := rTok r; rPc := rPc r; rStarts := rStarts r;
     rMutex := rMutex r; rSem := b |}.

Definition set_wPc (p : wpc) (w : Watcher) : Watcher :=
  {| wTask := wTask w; wTok := wTok w; wPc := p; timer := timer w |}.

Definition set_timer (d : option Z) (w : Watcher) : Watcher :=
  {| wTask := wTask w; wTok := wTok w; wPc := wPc w; timer := d |}.

(** ** The transition system *)

Inductive result :=
  | Blocked            (* the action cannot be taken in this state *)
  | Panic              (* the type assertion on a nil [v] in the dispatch loop *)
  | Next (s : State).

(** [processCtx.Done()] is closed: [processCtx] is a child of [ctx]. *)
Definition processDone (s : State) (tok : nat) : bool :=
  rootDone s || bool_decide (tok ∈ procDone s).

Definition putRunner (i : nat) (r : Runner) : State -> State :=
  set_runners (fun rs => <[i := r]> rs).

Definition putWatcher (j : nat) (w : Watcher) : State -> State :=
  set_watchers (fun ws => <[j := w]> ws).

(** Modelled from the spec: [util.GetMutex] is not part of the sources at
    hand; "a mapping from label to an exclusive lock; get-or-create on first
    access".  [Lock] takes the lock when it is free and keeps its caller
    waiting ([None]) while it is held; it has no other outcome. *)
Definition lockMutex (label : string) (s : State) : option State :=
  if bool_decide (label ∈ locked s) then None
  else Some (set_locked (fun l => {[label]} ∪ l) s).

Definition unlockMutex (label : string) (s : State) : State :=
  set_locked (fun l => l ∖ {[label]}) s.

(** Modelled from the spec: [util.NewSemaphores] and [Get] are not part of
    the sources at hand; "a mapping from label to a counting semaphore;
    capacity is read once from configuration", and "acquisition is
    cancellable: if the root token is tripped while waiting, acquisition
    returns failure".  [ok] is the outcome of [Acquire(ctx, 1)]: nil needs a
    free permit, an error needs [ctx] to be done; [None] when that outcome
    is not possible in [s]. *)
Definition acquire (label : string) (ok : bool) (s : State) : option State :=
  if ok then
    match permits s !! label with
    | Some (S n) => Some (set_permits (fun m => <[label := n]> m) s)
    | _ => None
    end
  else if rootDone s then Some s else None.

Definition releasePermit (label : string) (s : State) : State :=
  set_permits (alter S label) s.

(** A [return] of the runner goroutine: the deferred calls run last in,
    first out, [semaphore.Release(1)] before [mutex.Unlock()]. *)
Definition exitRunner (i : nat) (r : Runner) (s : State) : State :=
  let s1 := if rSem r then releasePermit (Semaphore (rTask r)) s else s in
  let s2 := if rMutex r then unlockMutex (Mutex (rTask r)) s1 else s1 in
  putRunner i (set_rSem false (set_rMutex false (set_rPc PcExited r))) s2.

(** [maybeStartDownstream(name)] called by a goroutine: its sends join the
    work channel. *)
Definition release (cfg : Config) (name : string) (s : State) : State :=
  set_work
    (fun w => (w ++ maybeStartDownstream (rootDone s) (tasks cfg) (statuses s) name)%list)
    s.

(** What the world answers to the runner at the point where it stands. *)
Inductive answer :=
  | Proceed                          (* nothing is decided outside the runner *)
  | Acquired                         (* [semaphore.Acquire] returned nil *)
  | AcquireFailed                    (* [semaphore.Acquire] returned an error *)
  | Skipped                          (* [t.Skip()] returned true *)
  | SetupFailed (canceled : bool)    (* [prc.Reset] or [isPortFree] failed *)
  | Started                          (* [t.Skip()] was false, [prc.Run] is entered *)
  | RunReturned (err : option bool)  (* [prc.Run] returned: [None] is nil,
                                        [Some c] an error with
                                        [c = errors.Is(err, context.Canceled)] *)
  | ProbeReady                       (* [readyFunc(true, _)] *)
  | ProbeUnready.                    (* [readyFunc(false, _)] *)

(** [if t.GetRestartPolicy() == "Never" { return }], else on to the sleep. *)
Definition restartDecision (i : nat) (r : Runner) (s : State) : State :=
  if GetRestartPolicy (rTask r) =? "Never" then exitRunner i r s
  else putRunner i (set_rPc PcBackoff r) s.

(** The classification of [err] after the inner closure has returned. *)
Definition afterRun (cfg : Config) (i : nat) (r : Runner) (err : option bool)
  (s : State) : State :=
  let name := Name (rTask r) in
  match err with
  | Some true => exitRunner i r s
  | Some false =>
      restartDecision i r
        (set_statuses (fun m => setBackoff name next (setReason name "error" m)) s)
  | None =>
      let s1 := set_statuses
                  (fun m => setBackoff name (fun _ => defaultBackoff)
                              (setReason name "success" m)) s in
      let s2 := release cfg name s1 in
      if negb (IsRestart (rTask r)) then exitRunner i r s2
      else restartDecision i r s2
  end.

(** One action of the runner goroutine [i], which is [r] in state [s]. *)
Definition runnerStep (cfg : Config) (i : nat) (r : Runner) (a : answer)
  (s : State) : result :=
  let t := rTask r in
  let name := Name t in
  match rPc r, a with
  | PcPreempt, Proceed =>
      let s1 := match stop s !! name with
                | Some f => set_procDone (fun d => {[f]} ∪ d) s
                | None => s
                end in
      Next (putRunner i (set_rPc PcMutex r)
              (set_stop (fun m => <[name := rTok r]> m) s1))
  | PcMutex, Proceed =>
      if Mutex t =? "" then Next (putRunner i (set_rPc PcSemaphore r) s)
      else match lockMutex (Mutex t) s with
           | Some s1 => Next (putRunner i (set_rMutex true (set_rPc PcSemaphore r)) s1)
           | None => Blocked
           end
  | PcSemaphore, Proceed =>
      if Semaphore t =? "" then Next (putRunner i (set_rPc PcLoopHead r) s)
      else Blocked
  | PcSemaphore, Acquired =>
      if Semaphore t =? "" then Blocked
      else match acquire (Semaphore t) true s with
           | Some s1 => Next (putRunner i (set_rSem true (set_rPc PcLoopHead r)) s1)
           | None => Blocked
           end
  | PcSemaphore, AcquireFailed =>
      if Semaphore t =? "" then Blocked
      else match acquire (Semaphore t) false s with
           | Some s1 => Next (exitRunner i r s1)
           | None => Blocked
           end
  | PcLoopHead, Proceed =>
      if processDone s (rTok r) then Next (exitRunner i r s) else Blocked
  | PcLoopHead, Skipped =>
      if processDone s (rTok r) then Blocked
      else
        (* [break] leaves the [select] only: control reaches the sleep at
           the tail of the [for] body *)
        Next (putRunner i (set_rPc PcBackoff r)
                (release cfg name (set_statuses (setReason name "success") s)))
  | PcLoopHead, SetupFailed canceled =>
      if processDone s (rTok r) then Blocked
      else Next (afterRun cfg i r (Some canceled)
                   (set_statuses (setReason name "starting") s))
  | PcLoopHead, Started =>
      if processDone s (rTok r) then Blocked
      else Next (putRunner i (set_rStarts (S (rStarts r)) (set_rPc PcRunning r))
                   (set_statuses
                      (setReason name
                         (if HasReadinessProbe t then "starting" else "running")) s))
  | PcRunning, RunReturned err => Next (afterRun cfg i r err s)
  | PcRunning, ProbeReady =>
      if HasReadinessProbe t
      then Next (release cfg name (set_statuses (setReason name "running") s))
      else Blocked
  | PcRunning, ProbeUnready =>
      if HasReadinessProbe t
      then Next (set_statuses (setReason name "error") s)
      else Blocked
  | PcBackoff, Proceed =>
      (* [if !terminating { time.Sleep(status.backoff.Duration) }] *)
      Next (putRunner i (set_rPc PcLoopHead r) s)
  | _, _ => Blocked
  end.

(** What reaches the watch goroutine. *)
Inductive wevent :=
  | WatchReady (ok : bool)   (* the paths are registered, or a panic on the way *)
  | FsEvent (op : Op)        (* [e := <-watcher.Events] *)
  | WatcherError             (* [err := <-watcher.Errors] *)
  | TimerFired               (* the function given to [time.AfterFunc] runs *)
  | CtxDone.                 (* [<-processCtx.Done()] *)

Definition sentinel : Z := 100 * 365 * 24 * hour.

(** One action of the watch goroutine [j], which is [w] in state [s].  A
    panic is recovered by [handleCrash], which calls [stopEverything]. *)
Definition watcherStep (j : nat) (w : Watcher) (e : wevent) (s : State) : result :=
  match wPc w, e with
  | WSetup, WatchReady true =>
      Next (putWatcher j (set_timer (Some sentinel) (set_wPc WLoop w)) s)
  | WSetup, WatchReady false =>
      Next (putWatcher j (set_wPc WExited w) (set_rootDone true s))
  | WLoop, CtxDone =>
      if processDone s (wTok w)
      then Next (putWatcher j (set_timer None (set_wPc WExited w)) s)
      else Blocked
  | WLoop, FsEvent op =>
      if negb (op =? Chmod)%Z
      then Next (putWatcher j (set_timer (Some second) w) s)
      else Next s
  | WLoop, WatcherError =>
      Next (putWatcher j (set_timer None (set_wPc WExited w)) (set_rootDone true s))
  | WLoop, TimerFired =>
      match timer w with
      | Some _ => Next (putWatcher j (set_timer None w)
                          (set_work (fun q => (q ++ [wTask w])%list) s))
      | None => Blocked
      end
  | _, _ => Blocked
  end.

(** The actions of the whole supervisor. *)
Inductive event :=
  | Seed                                  (* [work <- t] of the leaves goroutine *)
  | Signal                                (* SIGINT, SIGTERM or SIGHUP *)
  | CloseWork                             (* [terminating = true; close(work)] *)
  | Tick                                  (* one round of the termination check *)
  | Dispatch (k : nat)                    (* the dispatch loop receives a send *)
  | RunnerDoes (i : nat) (a : answer)
  | WatcherDoes (j : nat) (e : wevent).

Definition newRunner (t : Task) (tok : nat) : Runner :=
  {| rTask := t; rTok := tok; rPc := PcPreempt; rStarts := 0;
     rMutex := false; rSem := false |}.

Definition newWatcher (t : Task) (tok : nat) : Watcher :=
  {| wTask := t; wTok := tok; wPc := WSetup; timer := None |}.

(** The body of [for t := range work] up to the two [go] statements. *)
Definition dispatch (cfg : Config) (k : nat) (t : Task) (s : State) : result :=
  match statuses s !! Name t with
  | None => Panic
  | Some _ =>
      let tok := length (runners s) in
      Next (set_runners (fun rs => (rs ++ [newRunner t tok])%list)
              (set_watchers
                 (fun ws => if noWatch cfg then ws else (ws ++ [newWatcher t tok])%list)
                 (set_work (fun q => delete k q) s)))
  end.

Definition step (cfg : Config) (ev : event) (s : State) : result :=
  match ev with
  | Seed =>
      match GetLeaves (tasks cfg) !! seeded s with
      | Some t => Next (set_seeded (S (seeded s)) (set_work (fun q => (q ++ [t])%list) s))
      | None => Blocked
      end
  | Signal => Next (set_rootDone true s)
  | CloseWork =>
      if rootDone s && negb (closed s) then Next (set_closing s) else Blocked
  | Tick =>
      if allComplete (tasks cfg) (statuses s) || anyError (tasks cfg) (statuses s)
      then Next (set_rootDone true s)
      else Next s
  | Dispatch k =>
      if closed s then Blocked
      else match work s !! k with
           | Some t => dispatch cfg k t s
           | None => Blocked
           end
  | RunnerDoes i a =>
      match runners s !! i with
      | Some r => runnerStep cfg i r a s
      | None => Blocked
      end
  | WatcherDoes j e =>
      match watchers s !! j with
      | Some w => watcherStep j w e s
      | None => Blocked
      end
  end.

(** A run of the supervisor: the actions of [evs] one after the other. *)
Fixpoint exec (cfg : Config) (evs : list event) (s : State) : result :=
  match evs with
  | [] => Next s
  | ev :: rest =>
      match step cfg ev s with
      | Next s' => exec cfg rest s'
      | other => other
      end
  end.

Definition reachable (cfg : Config) (s : State) : Prop :=
  ∃ evs, exec cfg evs (init cfg) = Next s.

(** ** The command line *)

(** What [flag.Parse] reads from the command line: for each flag the value
    given, [None] when the flag is absent, and the positional arguments. *)
Record CommandLine := {
  givenH : option bool;
  givenV : option bool;
  givenF : option string;
  givenW : option bool;
  positional : list string
}.

(** The variables of [main] the flags are bound to, and [args]. *)
Record Options := {
  help : bool;
  printVersion : bool;
  configFile : string;
  optNoWatch : bool;
  args : list string
}.

Definition defaultConfigFile : string := "tasks.yaml".

(** A variable bound by [flag.BoolVar(p, name, value, usage)] or
    [flag.StringVar]: defining the flag stores [value] in the variable,
    whatever it held, and [flag.Parse] stores what the command line gives. *)
Definition flagVar {A} (held value : A) (given : option A) : A :=
  default value given.

(** The head of [main] up to [args := flag.Args()]. *)
Definition parseFlags (getenv : string -> string) (cl : CommandLine) : Options :=
  let help0 := false in
  let printVersion0 := false in
  let configFile0 := "" in
  let noWatch0 := (getenv "WATCH" =? "0") || (getenv "KIT_WATCH" =? "0") in
  {| help := flagVar help0 false (givenH cl);
     printVersion := flagVar printVersion0 false (givenV cl);
     configFile := flagVar configFile0 defaultConfigFile (givenF cl);
     optNoWatch := flagVar noWatch0 false (givenW cl);
     args := positional cl |}.



(** The configuration of the supervisor that the closure builds from the
    options and the pod. *)
Definition configOf (o : Options) (neededFor : list string -> Tasks -> Tasks)
  (pod : Pod) : Config :=
  {| tasks := neededFor (args o) (SpecTasks pod);
     noWatch := optNoWatch o;
     semaphoresCap := SpecSemaphores pod |}.

(** ** The colour of a task's log prefix *)

(** Go's [int] on the platforms at hand: 64 bits, two's complement. *)
Definition wrap64 (z : Z) : Z := ((z + 2 ^ 63) mod 2 ^ 64 - 2 ^ 63)%Z.

(** [code := 0; for _, x := range t.Name { code += int(x) }] and then
    [code = 30 + code%7]; [runes] are the code points that [range] yields for
    the name, and [%] is the truncated remainder. *)
Definition prefixCode (runes : list Z) : Z :=
  let code := fold_left (fun code x => wrap64 (code + x)) runes 0%Z in
  wrap64 (30 + Z.rem code 7).

(** ** The status line: [printTasks] *)

(** ["\x1b"], the escape character. *)
Definition esc : string := String (Ascii.ascii_of_nat 27) "".

Definition newline : string := String (Ascii.ascii_of_nat 10) "".

(** The [switch reason] of [printTasks]: what is written before the name. *)
Definition reasonColour (reason : string) : string :=
  if reason =? "waiting" then esc +:+ "[2m"
  else if reason =? "starting" then esc +:+ "[33m"
  else if reason =? "running" then esc +:+ "[32m"
  else if reason =? "success" then esc +:+ "[34m"
  else if reason =? "error" then esc +:+ "[31m"
  else "".

(** What one round of the loop over [pod.Spec.Tasks] writes for a task that
    has a status record; [hostPorts] stands for
    [fmt.Sprint(t.GetHostPorts())]. *)
Definition taskCell (hostPorts : Task -> string) (t : Task) (st : taskStatus) : string :=
  reasonColour (reason st) +:+ Name t +:+ " " +:+ reason st +:+ " " +:+
  esc +:+ "[2m" +:+ hostPorts t +:+ "   " +:+ esc +:+ "[0m".

(** The cells of the line: a task without a status record is passed over
    ([continue]). *)
Fixpoint taskCells (hostPorts : Task -> string) (podTasks : Tasks)
  (statuses : gmap string taskStatus) : list string :=
  match podTasks with
  | [] => []
  | t :: rest =>
      match statuses !! Name t with
      | Some st => taskCell hostPorts t st :: taskCells hostPorts rest statuses
      | None => taskCells hostPorts rest statuses
      end
  end.

(** The text [printTasks] prints.  [height] is what [terminal.GetSize(0)]
    gave. *)
Definition printTasks (hostPorts : Task -> string) (podTasks : Tasks)
  (statuses : gmap string taskStatus) (height : Z) : string :=
  let height := if (height =? 0)%Z then 24%Z else height in
  esc +:+ "[H" +:+ esc +:+ "[2K" +:+
  String.concat "" (taskCells hostPorts podTasks statuses) +:+
  esc +:+ "[K" +:+ newline +:+ esc +:+ "[" +:+ pretty height +:+ ";0H".

(** ** Properties used in the statements *)

(** An upstream permits its downstream to start: it has a status record that
    says success, or running while the upstream is a background task. *)
Definition upstreamFulfilled (tasks : Tasks) (statuses : gmap string taskStatus)
  (u : string) : Prop :=
  ∃ st, statuses !! u = Some st ∧
        (reason st = "success" ∨
         (reason st = "running" ∧ IsBackground (Get tasks u) = true)).

(** Some task with restart policy Never has reason error. *)
Definition neverTaskErrored (tasks : Tasks) (statuses : gmap string taskStatus) : Prop :=
  ∃ t, In t tasks ∧ GetRestartPolicy t = "Never" ∧
       ∃ st, statuses !! Name t = Some st ∧ reason st = "error".

(** The task is in error and has restart policy Never. *)
Definition erroredNever (statuses : gmap string taskStatus) (t : Task) : Prop :=
  GetRestartPolicy t = "Never" ∧
  ∃ st, statuses !! Name t = Some st ∧ reason st = "error".

(** The reasons [main] ever writes. *)
Definition reasons : list string :=
  ["waiting"; "starting"; "running"; "success"; "error"].

(** The name is the name of a task of the graph. *)
Definition named (tasks : Tasks) (name : string) : Prop :=
  ∃ t, In t tasks ∧ Name t = name.

Definition inGraph (tasks : Tasks) (t : Task) : bool :=
  existsb (fun u => Name u =? Name t) tasks.

(** The largest code point. *)
Definition maxRune : Z := 1114111.

(** What writes through the status pointer of the task [name] can make of
    the status table: any number of assignments to [reason], of one of the
    five reasons, and to [backoff]. *)
Inductive edited (name : string) (m : gmap string taskStatus)
  : gmap string taskStatus -> Prop :=
  | edited_refl : edited name m m
  | edited_reason r m' :
      In r reasons → edited name m m' → edited name m (setReason name r m')
  | edited_backoff f m' :
      edited name m m' → edited name m (setBackoff name f m').

(** What holds of a watch goroutine at any time: its timer is armed only
    while it is in its loop, and it has returned only if its process context
    is done. *)
Definition watcherOk (s : State) (w : Watcher) : Prop :=
  (wPc w ≠ WLoop → timer w = None) ∧
  (wPc w = WExited → processDone s (wTok w) = true).

(** A runner of a task with restart policy Never: it has not entered
    [prc.Run], or it has entered it once and is inside it or has returned. *)
Definition neverOk (r : Runner) : Prop :=
  (rStarts r = 0 ∧ rPc r ≠ PcRunning) ∨
  (rStarts r = 1 ∧ (rPc r = PcRunning ∨ rPc r = PcExited)).

(** The runner stands between [mutex.Lock()] and its return. *)
Definition pastMutex (p : pc) : bool :=
  match p with
  | PcSemaphore | PcLoopHead | PcRunning | PcBackoff => true
  | _ => false
  end.

(** The runner stands between [semaphore.Acquire] and its return. *)
Definition pastSemaphore (p : pc) : bool :=
  match p with
  | PcLoopHead | PcRunning | PcBackoff => true
  | _ => false
  end.

(** The deferred releases that are pending are those of the gates the
    runner has passed. *)
Definition gatesOk (r : Runner) : Prop :=
  rMutex r = pastMutex (rPc r) && negb (Mutex (rTask r) =? "") ∧
  rSem r = pastSemaphore (rPc r) && negb (Semaphore (rTask r) =? "").

(** How the set of held mutexes follows the runner's pending unlock. *)
Definition mutexMove (m : string) (b b' : bool) (L L' : gset string) : Prop :=
  match b, b' with
  | false, true => (m ∉ L) ∧ L' = ({[m]} ∪ L)
  | true, false => L' = (L ∖ {[m]})
  | _, _ => L' = L
  end.

(** How the free permits follow the runner's pending release. *)
Definition semMove (l : string) (b b' : bool) (P P' : gmap string nat) : Prop :=
  match b, b' with
  | false, true => ∃ n, P !! l = Some (S n) ∧ P' = <[l := n]> P
  | true, false => P' = alter S l P
  | _, _ => P' = P
  end.

(** The runners that hold a permit of the semaphore [l]. *)
Definition holds (l : string) (r : Runner) : bool :=
  rSem r && (Semaphore (rTask r) =? l).

Definition holders (l : string) (rs : list Runner) : nat :=
  length (List.filter (holds l) rs).

(** The free permits of the semaphore [l]; none for a label that is not
    configured. *)
Definition free (l : string) (P : gmap string nat) : nat := default 0 (P !! l).

(** The runner stands in the section gated by the semaphore [l]. *)
Definition inside (l : string) (r : Runner) : bool :=
  pastSemaphore (rPc r) && (Semaphore (rTask r) =? l).

(** The mutexes: who holds which. *)
Record mutexesOk (s : State) : Prop := {
  mu_gates : ∀ i r, runners s !! i = Some r → gatesOk r;
  mu_held : ∀ i r, runners s !! i = Some r → rMutex r = true →
                   Mutex (rTask r) ∈ locked s;
  mu_excl : ∀ i j ri rj,
      runners s !! i = Some ri → runners s !! j = Some rj →
      rMutex ri = true → rMutex rj = true →
      Mutex (rTask ri) = Mutex (rTask rj) → i = j;
  mu_owner : ∀ m, m ∈ locked s →
                  ∃ i r, runners s !! i = Some r ∧ rMutex r = true ∧
                         Mutex (rTask r) = m
}.

(** The semaphores: permits out plus permits free is the capacity. *)
Record semaphoresOk (cfg : Config) (s : State) : Prop := {
  se_some : ∀ i r, runners s !! i = Some r → rSem r = true →
                   is_Some (permits s !! Semaphore (rTask r));
  se_sum : ∀ l, holders l (runners s) + free l (permits s) =
                free l (semaphoresCap cfg)
}.

(** The registry of cancel functions: every entry is the token of a runner
    of the task it is registered under, one that has passed the preempt
    step; and the token of a runner is its place in the list. *)
Record registryOk (s : State) : Prop := {
  rg_tok : ∀ i r, runners s !! i = Some r → rTok r = i;
  rg_stop : ∀ name tok, stop s !! name = Some tok →
                        ∃ r, runners s !! tok = Some r ∧
                             Name (rTask r) = name ∧ rPc r ≠ PcPreempt
}.

(** The runner [tok] has been preempted: another runner of a task of the
    same name has passed the preempt step. *)
Definition preempted (s : State) (tok : nat) : Prop :=
  ∃ r j r', runners s !! tok = Some r ∧ runners s !! j = Some r' ∧ j ≠ tok ∧
            Name (rTask r') = Name (rTask r) ∧
            rPc r ≠ PcPreempt ∧ rPc r' ≠ PcPreempt.

(** The state a run of actions leads to; the initial state if it does not
    get that far. *)
Definition stateAfter (cfg : Config) (evs : list event) : State :=
  match exec cfg evs (init cfg) with
  | Next s => s
  | _ => init cfg
  end.

(** What holds in every state the supervisor can reach: every task of the
    graph has a status record, and every task that is on the work channel
    or owned by a goroutine is a task of the graph. *)
Record invariant (cfg : Config) (s : State) : Prop := {
  inv_statuses : ∀ t, In t (tasks cfg) → is_Some (statuses s !! Name t);
  inv_work : ∀ t, In t (work s) → In t (tasks cfg);
  inv_runners : ∀ r, In r (runners s) → In (rTask r) (tasks cfg);
  inv_watchers : ∀ w, In w (watchers s) → In (wTask w) (tasks cfg)
}.

(** ** Sample graphs *)

Definition job (name : string) (deps : list string) : Task :=
  {| Name := name; Dependencies := deps; Watch := []; Mutex := ""; Semaphore := "";
     IsBackground := false; IsRestart := false; GetRestartPolicy := "Never";
     HasReadinessProbe := false |}.

Definition service (name : string) : Task :=
  {| Name := name; Dependencies := []; Watch := []; Mutex := ""; Semaphore := "";
     IsBackground := true; IsRestart := true; GetRestartPolicy := "Always";
     HasReadinessProbe := false |}.

Definition withMutex (label : string) (t : Task) : Task :=
  {| Name := Name t; Dependencies := Dependencies t; Watch := Watch t;
     Mutex := label; Semaphore := Semaphore t; IsBackground := IsBackground t;
     IsRestart := IsRestart t; GetRestartPolicy := GetRestartPolicy t;
     HasReadinessProbe := HasReadinessProbe t |}.

Definition withSemaphore (label : string) (t : Task) : Task :=
  {| Name := Name t; Dependencies := Dependencies t; Watch := Watch t;
     Mutex := Mutex t; Semaphore := label; IsBackground := IsBackground t;
     IsRestart := IsRestart t; GetRestartPolicy := GetRestartPolicy t;
     HasReadinessProbe := HasReadinessProbe t |}.

Definition withWatch (paths : list string) (t : Task) : Task :=
  {| Name := Name t; Dependencies := Dependencies t; Watch := paths;
     Mutex := Mutex t; Semaphore := Semaphore t; IsBackground := IsBackground t;
     IsRestart := IsRestart t; GetRestartPolicy := GetRestartPolicy t;
     HasReadinessProbe := HasReadinessProbe t |}.

Definition status (r : string) : taskStatus :=
  {| reason := r; backoff_ := defaultBackoff |}.

(** A chain: [b] depends on [a]. *)
Definition chain : Config :=
  {| tasks := [job "a" []; job "b" ["a"]]; noWatch := false; semaphoresCap := ∅ |}.

(** A service next to a job; the job has succeeded while the service runs. *)
Definition mixed : Config :=
  {| tasks := [service "db"; job "migrate" []]; noWatch := true;
     semaphoresCap := ∅ |}.

Definition mixedSettled : State :=
  set_statuses
    (fun _ => {[ "db" := status "running"; "migrate" := status "success" ]})
    (init mixed).

(** Two jobs that share the mutex [m]. *)
Definition contended : Config :=
  {| tasks := [withMutex "m" (job "x" []); withMutex "m" (job "y" [])];
     noWatch := true; semaphoresCap := ∅ |}.

(** Two jobs gated by the semaphore [s], which has one permit. *)
Definition gated : Config :=
  {| tasks := [withSemaphore "s" (job "x" []); withSemaphore "s" (job "y" [])];
     noWatch := true; semaphoresCap := {[ "s" := 1 ]} |}.

(** A watched job. *)
Definition watched : Config :=
  {| tasks := [withWatch ["main.go"] (job "build" [])];
     noWatch := false; semaphoresCap := ∅ |}.

(** A pod whose [apiVersion] is not the expected one. *)
Definition badPod : Pod :=
  {| ApiVersion := "v1"; Kind := "Tasks"; MetadataName := "demo";
     SpecTasks := []; SpecSemaphores := ∅ |}.

Definition goodPod : Pod :=
  {| ApiVersion := "kit/v1"; Kind := "Tasks"; MetadataName := "demo";
     SpecTasks := [job "a" []]; SpecSemaphores := ∅ |}.

(** The leaf [a] of the chain has been dispatched and its child process is
    running. *)
Definition chainRunning : State :=
  stateAfter chain
    [Seed; Dispatch 0; RunnerDoes 0 Proceed; RunnerDoes 0 Proceed;
     RunnerDoes 0 Proceed; RunnerDoes 0 Started].

(** ... and then a signal trips the root token. *)
Definition chainCancelled : State :=
  stateAfter chain
    [Seed; Dispatch 0; RunnerDoes 0 Proceed; RunnerDoes 0 Proceed;
     RunnerDoes 0 Proceed; RunnerDoes 0 Started; Signal].

(** ... or the child process of [a] returns without error. *)
Definition chainDone : State :=
  stateAfter chain
    [Seed; Dispatch 0; RunnerDoes 0 Proceed; RunnerDoes 0 Proceed;
     RunnerDoes 0 Proceed; RunnerDoes 0 Started; RunnerDoes 0 (RunReturned None)].

(** ... or the child process of [a] fails. *)
Definition chainFailed : State :=
  stateAfter chain
    [Seed; Dispatch 0; RunnerDoes 0 Proceed; RunnerDoes 0 Proceed;
     RunnerDoes 0 Proceed; RunnerDoes 0 Started;
     RunnerDoes 0 (RunReturned (Some false))].

(** The pod of the chain also declares [c], which the graph leaves out. *)
Definition chainPod : Tasks := [job "a" []; job "c" []; job "b" ["a"]].

(** The leaf [a] of the chain has been dispatched and [Skip] was true the
    first time its runner went round the loop. *)
Definition chainSkipped : State :=
  stateAfter chain
    [Seed; Dispatch 0; RunnerDoes 0 Proceed; RunnerDoes 0 Proceed;
     RunnerDoes 0 Proceed; RunnerDoes 0 Skipped].

(** [x] runs and holds the mutex, [y] has been dispatched and stands before
    [mutex.Lock()], and then a signal trips the root token. *)
Definition contendedCancelled : State :=
  stateAfter contended
    [Seed; Dispatch 0; Seed; Dispatch 0;
     RunnerDoes 0 Proceed; RunnerDoes 0 Proceed; RunnerDoes 0 Proceed;
     RunnerDoes 0 Started; RunnerDoes 1 Proceed; Signal].

(** [x] runs and holds the permit, [y] stands before [semaphore.Acquire],
    and then a signal trips the root token. *)
Definition gatedCancelled : State :=
  stateAfter gated
    [Seed; Dispatch 0; Seed; Dispatch 0;
     RunnerDoes 0 Proceed; RunnerDoes 0 Proceed; RunnerDoes 0 Acquired;
     RunnerDoes 0 Started; RunnerDoes 1 Proceed; RunnerDoes 1 Proceed; Signal].

(** [x] has run and returned, and [y], which stood before [mutex.Lock()]
    in the meantime, has taken the mutex and runs. *)
Definition contendedHandover : State :=
  stateAfter contended
    [Seed; Dispatch 0; Seed; Dispatch 0;
     RunnerDoes 0 Proceed; RunnerDoes 0 Proceed; RunnerDoes 0 Proceed;
     RunnerDoes 0 Started; RunnerDoes 1 Proceed;
     RunnerDoes 0 (RunReturned None);
     RunnerDoes 1 Proceed; RunnerDoes 1 Proceed; RunnerDoes 1 Started].

(** [x] and [y] have held the permit one after the other and both have
    returned. *)
Definition gatedReturned : State :=
  stateAfter gated
    [Seed; Dispatch 0; Seed; Dispatch 0;
     RunnerDoes 0 Proceed; RunnerDoes 0 Proceed; RunnerDoes 0 Acquired;
     RunnerDoes 0 Started; RunnerDoes 1 Proceed; RunnerDoes 1 Proceed;
     RunnerDoes 0 (RunReturned None);
     RunnerDoes 1 Acquired; RunnerDoes 1 Started;
     RunnerDoes 1 (RunReturned None)].

(** [build] runs; a write to a watched file arms the timer, the timer fires
    and the dispatch loop receives [build] a second time. *)
Definition watchedStarted : list event :=
  [Seed; Dispatch 0; RunnerDoes 0 Proceed; RunnerDoes 0 Proceed;
   RunnerDoes 0 Proceed; RunnerDoes 0 Started; WatcherDoes 0 (WatchReady true)].

Definition watchedLoop : State := stateAfter watched watchedStarted.

Definition watchedAgain : State :=
  stateAfter watched
    (watchedStarted ++
     [WatcherDoes 0 (FsEvent Write); WatcherDoes 0 TimerFired; Dispatch 0])%list.

(** ... and the second runner goes all the way into [prc.Run]. *)
Definition watchedTwice : State :=
  stateAfter watched
    (watchedStarted ++
     [WatcherDoes 0 (FsEvent Write); WatcherDoes 0 TimerFired; Dispatch 0;
      RunnerDoes 1 Proceed; RunnerDoes 1 Proceed; RunnerDoes 1 Proceed;
      RunnerDoes 1 Started])%list.

(** ** Proof steps shared by the case analyses *)

(** All the ways a runner action can go: where the runner stands, what the
    world answers, and every test the step makes on the state. *)
Ltac runner_cases r a :=
  unfold runnerStep, afterRun, restartDecision, exitRunner, release, processDone,
    lockMutex, acquire, unlockMutex, releasePermit;
  destruct (rPc r) eqn:?, a as [| | | |?| |[[]|]| |]; try done;
  repeat (first [ case_match | case_bool_decide ]); try done.

Ltac watcher_cases w e :=
  unfold watcherStep;
  destruct (wPc w) eqn:?, e as [[]| | | |]; try done;
  repeat case_match; try done.

(** Brings [runners s' !! i = Some r'] after a runner action to [r' = ...]. *)
Ltac runner_after Hr H :=
  simpl in H;
  first [ rewrite list_lookup_insert_eq in H by (by eapply lookup_lt_Some)
        | idtac ];
  simplify_eq.

(** Closes a goal [edited name m m'] where [m'] is [m] under the setters. *)
Ltac edits :=
  repeat first
    [ apply edited_refl
    | apply edited_backoff
    | (apply edited_reason; [unfold reasons; simpl; tauto|]) ].

(** ** Downstream release *)

Lemma upstreamStep_false tasks (sts : gmap string taskStatus) deps :
  fold_left (upstreamStep tasks sts) deps false = false.
Proof.
  induction deps as [|u deps IH]; simpl; [done|].
  unfold upstreamStep at 2. destruct (sts !! u); simpl; exact IH.
Qed.

Lemma upstreamStep_true tasks (sts : gmap string taskStatus) u :
  upstreamStep tasks sts true u = true ↔ upstreamFulfilled tasks sts u.
Proof.
  unfold upstreamStep, upstreamFulfilled. destruct (sts !! u) as [st|]; simpl.
  - rewrite orb_true_iff, andb_true_iff, !String.eqb_eq. split.
    + intros H. exists st. split; [done|exact H].
    + intros (st' & Hst & H). by inversion Hst; subst.
  - split; [done|]. by intros (st & Hst & _).
Qed.

Lemma fold_upstreamStep tasks (sts : gmap string taskStatus) deps :
  fold_left (upstreamStep tasks sts) deps true = true ↔
  ∀ u, In u deps → upstreamFulfilled tasks sts u.
Proof.
  induction deps as [|u deps IH]; simpl.
  - split; [by intros _ ? []|done].
  - destruct (upstreamStep tasks sts true u) eqn:Hu.
    + rewrite IH. apply upstreamStep_true in Hu. split.
      * intros H v [<-|Hv]; [done|by apply H].
      * intros H v Hv. apply H. by right.
    + rewrite upstreamStep_false. split; [done|].
      intros H. apply Is_true_true. apply Is_true_false in Hu. exfalso. apply Hu.
      apply Is_true_true. apply upstreamStep_true. apply H. by left.
Qed.

Lemma fulfilled_spec tasks (sts : gmap string taskStatus) d :
  fulfilled tasks sts d = true ↔
  ∀ u, In u (Dependencies d) → upstreamFulfilled tasks sts u.
Proof. apply fold_upstreamStep. Qed.

Lemma GetDownstream_spec tasks name d :
  In d (GetDownstream tasks name) ↔ In d tasks ∧ In name (Dependencies d).
Proof.
  unfold GetDownstream. rewrite filter_In, existsb_exists.
  split; intros [Hd H]; (split; [done|]).
  - destruct H as (u & Hu & Heq). apply String.eqb_eq in Heq. by subst.
  - exists name. split; [done|]. apply String.eqb_refl.
Qed.

Lemma GetLeaves_In tasks t : In t (GetLeaves tasks) → In t tasks.
Proof. unfold GetLeaves. rewrite filter_In. by intros [? _]. Qed.

Lemma maybeStartDownstream_In done tasks (sts : gmap string taskStatus) name d :
  In d (maybeStartDownstream done tasks sts name) → In d tasks.
Proof.
  unfold maybeStartDownstream. destruct done; [done|].
  rewrite filter_In, GetDownstream_spec. by intros [[? _] _].
Qed.

(** C1 (amended): while the root context is not cancelled, a task [d] of
    [downstream(name)] is enqueued by the downstream-release step if and
    only if every upstream in [d.dependencies] has a status record whose
    reason is success, or running while the upstream is a background task;
    an upstream without a status record keeps [d] from being enqueued. *)
Theorem maybeStartDownstream_enqueues_iff_fulfilled
  tasks (sts : gmap string taskStatus) name d :
  In d (GetDownstream tasks name) →
  (In d (maybeStartDownstream false tasks sts name) ↔
   ∀ u, In u (Dependencies d) → upstreamFulfilled tasks sts u) ∧
  ((∃ u, In u (Dependencies d) ∧ sts !! u = None) →
   ¬ In d (maybeStartDownstream false tasks sts name)).
Proof.
  intros Hd.
  assert (In d (maybeStartDownstream false tasks sts name) ↔
          ∀ u, In u (Dependencies d) → upstreamFulfilled tasks sts u) as Hiff.
  { unfold maybeStartDownstream. rewrite filter_In, fulfilled_spec. tauto. }
  split; [exact Hiff|].
  intros (u & Hu & Hnone) Hin.
  destruct (proj1 Hiff Hin u Hu) as (st & Hst & _). congruence.
Qed.

Lemma maybeStartDownstream_enqueues_iff_fulfilled_witness :
  In (job "b" ["a"]) (GetDownstream (tasks chain) "a") ∧
  (In (job "b" ["a"])
      (maybeStartDownstream false (tasks chain) {[ "a" := status "success" ]} "a") ↔
   ∀ u, In u (Dependencies (job "b" ["a"])) →
        upstreamFulfilled (tasks chain) {[ "a" := status "success" ]} u).
Proof.
  assert (In (job "b" ["a"]) (GetDownstream (tasks chain) "a")) as H.
  { simpl. by left. }
  split; [exact H|].
  exact (proj1 (maybeStartDownstream_enqueues_iff_fulfilled
                  (tasks chain) {[ "a" := status "success" ]} "a" _ H)).
Defined.

(** C1 as stated fails once the root context is cancelled: [b] is
    downstream of [a], its only upstream [a] has reason success, and the
    step still enqueues nothing. *)
Lemma maybeStartDownstream_fulfilled_not_enqueued :
  In (job "b" ["a"]) (GetDownstream (tasks chain) "a") ∧
  (∀ u, In u (Dependencies (job "b" ["a"])) →
        upstreamFulfilled (tasks chain) {[ "a" := status "success" ]} u) ∧
  ¬ In (job "b" ["a"])
       (maybeStartDownstream true (tasks chain) {[ "a" := status "success" ]} "a").
Proof.
  split; [simpl; by left|]. split; [|by intros []].
  intros u [<-|[]]. exists (status "success"). split; [done|by left].
Qed.

(** C9: once the root context is cancelled the downstream-release step
    sends nothing, whatever the task name and the status table; a call from
    a goroutine leaves the state as it is, and so no action of a runner or
    of its readiness probe adds to the work channel. *)
Theorem maybeStartDownstream_noop_after_cancel :
  (∀ tasks (sts : gmap string taskStatus) name,
     maybeStartDownstream true tasks sts name = []) ∧
  (∀ cfg name s, rootDone s = true → release cfg name s = s) ∧
  (∀ cfg i a s s',
     rootDone s = true → step cfg (RunnerDoes i a) s = Next s' → work s' = work s).
Proof.
  assert (∀ cfg name s, rootDone s = true → release cfg name s = s) as Hrel.
  { intros cfg name s Hd. unfold release. rewrite Hd.
    unfold set_work. simpl. rewrite app_nil_r. by destruct s. }
  split; [done|]. split; [exact Hrel|].
  intros cfg i a s s' Hd. simpl.
  destruct (runners s !! i) as [r|]; [|done].
  runner_cases r a; intros ?; simplify_eq; simpl in *; try done;
    rewrite ?Hd in *; simpl in *; try done; by rewrite ?app_nil_r.
Qed.

Lemma maybeStartDownstream_noop_after_cancel_witness :
  rootDone chainCancelled = true ∧
  fulfilled (tasks chain) {[ "a" := status "success" ]} (job "b" ["a"]) = true ∧
  maybeStartDownstream true (tasks chain) {[ "a" := status "success" ]} "a" = [] ∧
  ∀ s', step chain (RunnerDoes 0 (RunReturned None)) chainCancelled = Next s' →
        work s' = work chainCancelled.
Proof.
  split; [by vm_compute|]. split; [by vm_compute|].
  destruct maybeStartDownstream_noop_after_cancel as (Hnil & _ & Hstep).
  split; [apply Hnil|]. intros s'. apply Hstep. by vm_compute.
Defined.

(** ** The termination check *)

Lemma allComplete_spec tasks (sts : gmap string taskStatus) :
  allComplete tasks sts = true ↔
  ∀ t, In t tasks →
       IsBackground t = false ∧
       ∃ st, sts !! Name t = Some st ∧ (reason st = "success" ∨ reason st = "error").
Proof.
  unfold allComplete, All. rewrite forallb_forall.
  split; intros H t Ht; specialize (H t Ht).
  - destruct (sts !! Name t) as [st|]; [|done].
    apply andb_true_iff in H as [Hbg Hr]. apply negb_true_iff in Hbg.
    split; [done|]. exists st. split; [done|].
    apply orb_true_iff in Hr. by rewrite !String.eqb_eq in Hr.
  - destruct H as (Hbg & st & -> & Hr). rewrite Hbg. simpl.
    apply orb_true_iff. by rewrite !String.eqb_eq.
Qed.

Lemma anyError_spec tasks (sts : gmap string taskStatus) :
  anyError tasks sts = true ↔ neverTaskErrored tasks sts.
Proof.
  unfold anyError, Any, neverTaskErrored. rewrite existsb_exists.
  split.
  - intros (t & Ht & H). exists t. split; [done|].
    destruct (sts !! Name t) as [st|]; [|done].
    apply andb_true_iff in H as [Hp Hr]. apply String.eqb_eq in Hp, Hr.
    split; [done|]. by exists st.
  - intros (t & Ht & Hp & st & Hst & Hr). exists t. split; [done|].
    rewrite Hst, Hp, Hr. done.
Qed.

Lemma allComplete_background tasks (sts : gmap string taskStatus) t :
  In t tasks → IsBackground t = true → allComplete tasks sts = false.
Proof.
  intros Ht Hbg. apply not_true_is_false. intros H.
  destruct (proj1 (allComplete_spec tasks sts) H t Ht) as [Hnb _]. congruence.
Qed.

(** C2 (amended): a round of the termination check trips the root token
    exactly when [allComplete] or [anyError] holds, where [allComplete]
    holds if and only if every task of the graph is a non-background task
    with reason success or error; when the graph contains a background task
    [allComplete] is false, and the round trips the token only if some task
    with restart policy Never has reason error. *)
Theorem termination_check_trips cfg s :
  ∃ s', step cfg Tick s = Next s' ∧
    (rootDone s' = true ↔
       rootDone s = true ∨
       (∀ t, In t (tasks cfg) →
          IsBackground t = false ∧
          ∃ st, statuses s !! Name t = Some st ∧
                (reason st = "success" ∨ reason st = "error")) ∨
       neverTaskErrored (tasks cfg) (statuses s)) ∧
    ((∃ t, In t (tasks cfg) ∧ IsBackground t = true) →
       allComplete (tasks cfg) (statuses s) = false ∧
       (rootDone s' = true ↔
          rootDone s = true ∨ neverTaskErrored (tasks cfg) (statuses s))).
Proof.
  pose proof (allComplete_spec (tasks cfg) (statuses s)) as Hall.
  pose proof (anyError_spec (tasks cfg) (statuses s)) as Hany.
  set (a := allComplete (tasks cfg) (statuses s)) in *.
  set (e := anyError (tasks cfg) (statuses s)) in *.
  exists (if a || e then set_rootDone true s else s).
  split; [simpl; fold a e; by destruct (a || e)|].
  assert (rootDone (if a || e then set_rootDone true s else s) = true ↔
          rootDone s = true ∨ a = true ∨ e = true) as Htrip.
  { destruct a, e; simpl; intuition congruence. }
  split.
  - by rewrite Htrip, Hall, Hany.
  - intros (t & Ht & Hbg).
    pose proof (allComplete_background _ (statuses s) t Ht Hbg) as Hf.
    fold a in Hf. split; [done|]. rewrite Htrip, Hf, Hany. intuition congruence.
Qed.

Lemma termination_check_trips_witness :
  ∃ s', step mixed Tick mixedSettled = Next s' ∧
        allComplete (tasks mixed) (statuses mixedSettled) = false ∧
        (rootDone s' = true ↔
           rootDone mixedSettled = true ∨
           neverTaskErrored (tasks mixed) (statuses mixedSettled)).
Proof.
  destruct (termination_check_trips mixed mixedSettled) as (s' & Hstep & _ & Hbg).
  exists s'. split; [exact Hstep|]. apply Hbg.
  exists (service "db"). split; [by left|reflexivity].
Defined.

(** C2 as stated fails: the graph holds the background task [db], its only
    non-background task [migrate] has reason success, and still
    [allComplete] is false and the round leaves the root token alone. *)
Lemma background_graph_is_not_tripped :
  In (service "db") (tasks mixed) ∧
  (∀ t, In t (tasks mixed) → IsBackground t = false →
        ∃ st, statuses mixedSettled !! Name t = Some st ∧
              (reason st = "success" ∨ reason st = "error")) ∧
  allComplete (tasks mixed) (statuses mixedSettled) = false ∧
  step mixed Tick mixedSettled = Next mixedSettled ∧
  rootDone mixedSettled = false.
Proof.
  split; [by left|]. split; [|by vm_compute].
  intros t [<-|[<-|[]]] Hbg; [discriminate|].
  exists (status "success"). split; [by vm_compute|by left].
Qed.

(** ** Startup and the final scan *)

Lemma finalScan_spec tasks (sts : gmap string taskStatus) :
  finalScan tasks sts ≠ None ↔ neverTaskErrored tasks sts.
Proof.
  unfold neverTaskErrored. induction tasks as [|t rest IH]; simpl.
  - split; [done|]. by intros (? & [] & _).
  - destruct (sts !! Name t) as [st|] eqn:Hst.
    + destruct ((reason st =? "error") && (GetRestartPolicy t =? "Never")) eqn:Hc.
      * apply andb_true_iff in Hc as [Hr Hp]. apply String.eqb_eq in Hr, Hp.
        split; [|done]. intros _. exists t. split; [by left|]. split; [done|].
        by exists st.
      * rewrite IH. split.
        -- intros (u & Hu & H). exists u. split; [by right|done].
        -- intros (u & [<-|Hu] & Hp & st' & Hst' & Hr).
           ++ rewrite Hst in Hst'. inversion Hst'; subst st'.
              rewrite Hr, Hp in Hc. discriminate.
           ++ exists u. split; [done|]. split; [done|]. by exists st'.
    + rewrite IH. split.
      * intros (u & Hu & H). exists u. split; [by right|done].
      * intros (u & [<-|Hu] & Hp & st' & Hst' & Hr); [congruence|].
        exists u. split; [done|]. split; [done|]. by exists st'.
Qed.

Lemma exitStatus_nonzero err : exitStatus err ≠ 0%Z ↔ err ≠ None.
Proof. destruct err; simpl; split; intros H; done. Qed.

(** C6 (amended): when the configuration is read, parsed and validated, the
    closure returns a failure, and the process exits with a nonzero status,
    if and only if at least one task of the effective graph with restart
    policy Never has final reason error once all runners are done; when
    startup fails the closure returns that failure and the exit status is 1
    whatever the tasks did. *)
Theorem run_fails_iff_never_task_errored cfg neededFor (final : gmap string taskStatus) :
  (∀ pod, startup cfg = inr pod →
     (run cfg neededFor final ≠ None ↔
      neverTaskErrored (neededFor (SpecTasks pod)) final) ∧
     (exitStatus (run cfg neededFor final) ≠ 0%Z ↔
      neverTaskErrored (neededFor (SpecTasks pod)) final)) ∧
  (∀ err, startup cfg = inl err →
     run cfg neededFor final = Some err ∧
     exitStatus (run cfg neededFor final) = 1%Z).
Proof.
  unfold run. split.
  - intros pod ->. rewrite exitStatus_nonzero. split; apply finalScan_spec.
  - by intros err ->.
Qed.

Lemma run_fails_iff_never_task_errored_witness :
  startup (Parsed goodPod) = inr goodPod ∧
  run (Parsed goodPod) id {[ "a" := status "error" ]} = Some "a errored" ∧
  run (Parsed goodPod) id {[ "a" := status "success" ]} = None ∧
  (run (Parsed goodPod) id {[ "a" := status "error" ]} ≠ None ↔
   neverTaskErrored (id (SpecTasks goodPod)) {[ "a" := status "error" ]}).
Proof.
  split; [reflexivity|]. split; [reflexivity|]. split; [reflexivity|].
  exact (proj1 (proj1 (run_fails_iff_never_task_errored
                         (Parsed goodPod) id {[ "a" := status "error" ]})
                      goodPod eq_refl)).
Defined.

(** C6 as stated fails: with a wrong [apiVersion] the closure returns a
    failure and the exit status is 1, although no task has reason error. *)
Lemma run_fails_without_errored_task :
  run (Parsed badPod) id ∅ = Some "invalid apiVersion, must be 'kit/v1" ∧
  exitStatus (run (Parsed badPod) id ∅) = 1%Z ∧
  ¬ neverTaskErrored (id (SpecTasks badPod)) ∅.
Proof.
  split; [reflexivity|]. split; [reflexivity|]. by intros (t & [] & _).
Qed.

(** ** How an action changes the threads *)

Lemma In_insert {A} (l : list A) i x y : In x (<[i := y]> l) → x = y ∨ In x l.
Proof.
  revert i. induction l as [|z l IH]; intros [|i]; simpl; try tauto.
  - intros [<-|H]; auto.
  - intros [<-|H]; auto. destruct (IH _ H); auto.
Qed.

Lemma lookup_In {A} (l : list A) i x : l !! i = Some x → In x l.
Proof. intros H. apply list_elem_of_In. by eapply list_elem_of_lookup_2. Qed.

(** A runner action rewrites the runner's own entry and nothing else of the
    runner list; it never touches the root token, and it enters [prc.Run]
    only while the root token is not tripped. *)
Lemma runnerStep_frame cfg i r a s s' :
  runners s !! i = Some r →
  runnerStep cfg i r a s = Next s' →
  ∃ r', runners s' = <[i := r']> (runners s) ∧
        rTask r' = rTask r ∧ rTok r' = rTok r ∧
        rootDone s' = rootDone s ∧ watchers s' = watchers s ∧
        (rStarts r' = rStarts r ∨
         (rootDone s = false ∧ a = Started ∧ rStarts r' = S (rStarts r))).
Proof.
  intros Hr.
  runner_cases r a; intros ?; simplify_eq; simpl;
    first [ (eexists; split; [reflexivity|]; simpl; by auto 10)
          | (exists r; rewrite list_insert_id by done; by auto 10)
          | idtac ].
  all: eexists; split; [reflexivity|]; simpl; repeat (split; [done|]); right.
  all: split; [|done]; destruct (rootDone s); [simpl in *; congruence|done].
Qed.

Lemma watcherStep_frame j w e s s' :
  watchers s !! j = Some w →
  watcherStep j w e s = Next s' →
  runners s' = runners s ∧ statuses s' = statuses s ∧
  (rootDone s = true → rootDone s' = true) ∧
  ∃ w', watchers s' = <[j := w']> (watchers s) ∧ wTask w' = wTask w.
Proof.
  intros Hw. watcher_cases w e; intros [= <-]; simpl;
    repeat (split; [done|]);
    first [ (eexists; split; [reflexivity|]; done)
          | (exists w; by rewrite list_insert_id) ].
Qed.

(** Once the root token is tripped it stays tripped, every runner stays in
    the list, and none of them enters [prc.Run] again. *)
Lemma step_after_cancel cfg ev s s' :
  rootDone s = true →
  step cfg ev s = Next s' →
  rootDone s' = true ∧
  ∀ i r, runners s !! i = Some r →
         ∃ r', runners s' !! i = Some r' ∧ rStarts r' = rStarts r ∧
               rTask r' = rTask r.
Proof.
  intros Hd. destruct ev as [| | | |k|j a|j e]; simpl.
  - case_match; [|done]. intros [= <-]. simpl. eauto.
  - intros [= <-]. simpl. eauto.
  - case_match; [|done]. intros [= <-]. simpl. eauto.
  - case_match; intros [= <-]; simpl; eauto.
  - repeat case_match; try done. unfold dispatch. case_match; [|done].
    intros [= <-]. simpl. split; [done|]. intros i r Hr. exists r.
    split; [|done]. by apply lookup_app_l_Some.
  - destruct (runners s !! j) as [rj|] eqn:Hj; [|done]. intros Hstep.
    destruct (runnerStep_frame _ _ _ _ _ _ Hj Hstep)
      as (r' & -> & Ht & _ & Hroot & _ & Hst).
    split; [congruence|]. intros i r Hr.
    destruct (decide (i = j)) as [->|Hne].
    + exists r'. rewrite list_lookup_insert_eq by by eapply lookup_lt_Some.
      assert (r = rj) as -> by congruence.
      split; [done|]. split; [|done].
      destruct Hst as [?|(Hf & _)]; [done|congruence].
    + exists r. by rewrite list_lookup_insert_ne.
  - destruct (watchers s !! j) as [w|] eqn:Hj; [|done]. intros Hstep.
    destruct (watcherStep_frame _ _ _ _ _ Hj Hstep) as (-> & _ & Hroot & _).
    split; [auto|]. eauto.
Qed.

Lemma exec_after_cancel cfg evs : ∀ s s',
  rootDone s = true →
  exec cfg evs s = Next s' →
  rootDone s' = true ∧
  ∀ i r, runners s !! i = Some r →
         ∃ r', runners s' !! i = Some r' ∧ rStarts r' = rStarts r ∧
               rTask r' = rTask r.
Proof.
  induction evs as [|ev evs IH]; intros s s' Hd; simpl.
  - intros [= <-]. eauto.
  - destruct (step cfg ev s) as [| |s1] eqn:Hstep; try done. intros Hexec.
    destruct (step_after_cancel _ _ _ _ Hd Hstep) as [Hd1 H1].
    destruct (IH _ _ Hd1 Hexec) as [Hd' H'].
    split; [done|]. intros i r Hr.
    destruct (H1 _ _ Hr) as (r1 & Hr1 & Hs1 & Ht1).
    destruct (H' _ _ Hr1) as (r' & Hr' & Hs' & Ht').
    exists r'. split; [done|]. split; congruence.
Qed.

(** ** The invariant of the supervisor *)

Lemma initStatuses_fold tasks : ∀ (m : gmap string taskStatus) name,
  is_Some (m !! name) ∨ (∃ t, In t tasks ∧ Name t = name) →
  is_Some
    (fold_left
       (fun m t => <[Name t := {| reason := "waiting"; backoff_ := defaultBackoff |}]> m)
       tasks m !! name).
Proof.
  induction tasks as [|t tasks IH]; intros m name H; simpl.
  - destruct H as [H|(t & [] & _)]. exact H.
  - apply IH. destruct H as [H|(u & [<-|Hu] & Hn)].
    + left. rewrite lookup_insert_is_Some. destruct (decide (Name t = name)); auto.
    + left. rewrite lookup_insert_is_Some. auto.
    + right. by exists u.
Qed.

Lemma initStatuses_lookup tasks t :
  In t tasks → is_Some (initStatuses tasks !! Name t).
Proof. intros Ht. apply initStatuses_fold. right. by exists t. Qed.

Lemma setReason_keeps name r (m : gmap string taskStatus) k :
  is_Some (m !! k) → is_Some (setReason name r m !! k).
Proof. intros H. unfold setReason. by rewrite lookup_alter_is_Some. Qed.

Lemma setBackoff_keeps name f (m : gmap string taskStatus) k :
  is_Some (m !! k) → is_Some (setBackoff name f m !! k).
Proof. intros H. unfold setBackoff. by rewrite lookup_alter_is_Some. Qed.

Section Invariant.

Variable cfg : Config.

Lemma inv_init : invariant cfg (init cfg).
Proof.
  split; simpl; try done. intros t Ht. by apply initStatuses_lookup.
Qed.

Lemma inv_set_statuses f s :
  (∀ m k, is_Some (m !! k) → is_Some (f m !! k)) →
  invariant cfg s → invariant cfg (set_statuses f s).
Proof. intros Hf [H1 H2 H3 H4]. split; simpl; auto. Qed.

Lemma inv_setReason name r s :
  invariant cfg s → invariant cfg (set_statuses (setReason name r) s).
Proof. apply inv_set_statuses. intros m k. apply setReason_keeps. Qed.

Lemma inv_setBackoff name f r s :
  invariant cfg s →
  invariant cfg (set_statuses (fun m => setBackoff name f (setReason name r m)) s).
Proof.
  apply inv_set_statuses. intros m k Hk. by apply setBackoff_keeps, setReason_keeps.
Qed.

(** A change that leaves the status table, the work channel and the
    goroutines' tasks alone keeps the invariant. *)
Lemma inv_same s s' :
  statuses s' = statuses s → work s' = work s →
  runners s' = runners s → watchers s' = watchers s →
  invariant cfg s → invariant cfg s'.
Proof. intros E1 E2 E3 E4 [H1 H2 H3 H4]. split; rewrite ?E1, ?E2, ?E3, ?E4; auto. Qed.

Lemma inv_set_procDone f s : invariant cfg s → invariant cfg (set_procDone f s).
Proof. by apply inv_same. Qed.

Lemma inv_set_stop f s : invariant cfg s → invariant cfg (set_stop f s).
Proof. by apply inv_same. Qed.

Lemma inv_set_locked f s : invariant cfg s → invariant cfg (set_locked f s).
Proof. by apply inv_same. Qed.

Lemma inv_set_permits f s : invariant cfg s → invariant cfg (set_permits f s).
Proof. by apply inv_same. Qed.

Lemma inv_set_rootDone b s : invariant cfg s → invariant cfg (set_rootDone b s).
Proof. by apply inv_same. Qed.

Lemma inv_set_seeded n s : invariant cfg s → invariant cfg (set_seeded n s).
Proof. by apply inv_same. Qed.

Lemma inv_set_closing s : invariant cfg s → invariant cfg (set_closing s).
Proof. by apply inv_same. Qed.

Lemma inv_putRunner i r s :
  In (rTask r) (tasks cfg) → invariant cfg s → invariant cfg (putRunner i r s).
Proof.
  intros Hr [H1 H2 H3 H4]. split; simpl; auto.
  intros r' Hin. destruct (In_insert _ _ _ _ Hin) as [->|]; auto.
Qed.

Lemma inv_putWatcher j w s :
  In (wTask w) (tasks cfg) → invariant cfg s → invariant cfg (putWatcher j w s).
Proof.
  intros Hw [H1 H2 H3 H4]. split; simpl; auto.
  intros w' Hin. destruct (In_insert _ _ _ _ Hin) as [->|]; auto.
Qed.

Lemma inv_send ts s :
  (∀ t, In t ts → In t (tasks cfg)) →
  invariant cfg s → invariant cfg (set_work (fun q => (q ++ ts)%list) s).
Proof.
  intros Hts [H1 H2 H3 H4]. split; simpl; auto.
  intros t Hin. apply in_app_or in Hin as [|]; auto.
Qed.

Lemma inv_release name s : invariant cfg s → invariant cfg (release cfg name s).
Proof.
  intros H. apply inv_send; [|done]. intros t. apply maybeStartDownstream_In.
Qed.

Create HintDb inv.

#[local] Hint Resolve inv_set_procDone inv_set_stop inv_set_locked inv_set_permits
  inv_set_rootDone inv_set_seeded inv_set_closing inv_setReason inv_setBackoff
  inv_putRunner inv_putWatcher inv_release : inv.

Lemma inv_exitRunner i r s :
  In (rTask r) (tasks cfg) → invariant cfg s → invariant cfg (exitRunner i r s).
Proof.
  intros Hr H. unfold exitRunner, unlockMutex, releasePermit.
  destruct (rSem r), (rMutex r); auto with inv.
Qed.

#[local] Hint Resolve inv_exitRunner : inv.

Lemma inv_restartDecision i r s :
  In (rTask r) (tasks cfg) → invariant cfg s → invariant cfg (restartDecision i r s).
Proof. intros Hr H. unfold restartDecision. case_match; auto with inv. Qed.

#[local] Hint Resolve inv_restartDecision : inv.

Lemma inv_afterRun i r err s :
  In (rTask r) (tasks cfg) → invariant cfg s → invariant cfg (afterRun cfg i r err s).
Proof.
  intros Hr H. unfold afterRun.
  destruct err as [[]|]; [auto with inv..|].
  case_match; auto with inv.
Qed.

#[local] Hint Resolve inv_afterRun : inv.

Lemma inv_runnerStep i r a s s' :
  In (rTask r) (tasks cfg) → invariant cfg s →
  runnerStep cfg i r a s = Next s' → invariant cfg s'.
Proof.
  intros Hr H. unfold runnerStep, lockMutex, acquire.
  destruct (rPc r), a as [| | | |c| |err| |]; try done;
    repeat (first [ case_match | case_bool_decide ]); try done;
    intros ?; simplify_eq; auto 8 with inv.
  destruct c; auto 8 with inv.
Qed.

Lemma inv_watcherStep j w e s s' :
  In (wTask w) (tasks cfg) → invariant cfg s →
  watcherStep j w e s = Next s' → invariant cfg s'.
Proof.
  intros Hw H. watcher_cases w e; intros [= <-]; auto with inv.
  apply inv_putWatcher; [done|]. apply inv_send; [|done]. by intros t [<-|[]].
Qed.

Lemma inv_dispatch k t s s' :
  work s !! k = Some t → invariant cfg s →
  dispatch cfg k t s = Next s' → invariant cfg s'.
Proof.
  intros Hk [H1 H2 H3 H4]. unfold dispatch. case_match; [|done].
  intros [= <-]. pose proof (H2 _ (lookup_In _ _ _ Hk)) as Ht.
  split; simpl; auto.
  - intros u Hu. apply H2. apply list_elem_of_In.
    eapply list_elem_of_delete_inv. by apply list_elem_of_In.
  - intros r Hr. apply in_app_or in Hr as [|[<-|[]]]; auto.
  - intros w Hw. destruct (noWatch cfg); auto.
    apply in_app_or in Hw as [|[<-|[]]]; auto.
Qed.

Lemma inv_step ev s s' :
  invariant cfg s → step cfg ev s = Next s' → invariant cfg s'.
Proof.
  intros H. destruct ev as [| | | |k|i a|j e]; simpl.
  - destruct (GetLeaves (tasks cfg) !! seeded s) as [t|] eqn:Ht; [|done].
    intros [= <-]. apply inv_set_seeded.
    apply inv_send; [|done]. intros u [<-|[]].
    eapply GetLeaves_In, lookup_In. exact Ht.
  - intros [= <-]. auto with inv.
  - case_match; [|done]. intros [= <-]. auto with inv.
  - case_match; intros [= <-]; auto with inv.
  - case_match; [done|]. destruct (work s !! k) as [t|] eqn:Hk; [|done].
    by apply inv_dispatch.
  - destruct (runners s !! i) as [r|] eqn:Hr; [|done].
    apply inv_runnerStep; [|done]. eapply inv_runners; [done|].
    by eapply lookup_In.
  - destruct (watchers s !! j) as [w|] eqn:Hw; [|done].
    apply inv_watcherStep; [|done]. eapply inv_watchers; [done|].
    by eapply lookup_In.
Qed.

(** Under the invariant the dispatch loop finds the status record. *)
Lemma dispatch_no_panic s k :
  invariant cfg s → step cfg (Dispatch k) s ≠ Panic.
Proof.
  intros H. simpl. case_match; [done|].
  destruct (work s !! k) as [t|] eqn:Hk; [|done]. unfold dispatch.
  destruct (inv_statuses _ _ H t) as [st ->]; [|done].
  eapply inv_work; [done|]. by eapply lookup_In.
Qed.

Lemma step_no_panic ev s : invariant cfg s → step cfg ev s ≠ Panic.
Proof.
  intros H. destruct ev as [| | | |k|i a|j e]; try by apply dispatch_no_panic.
  all: simpl; repeat case_match; try done.
  - unfold runnerStep, afterRun, lockMutex, acquire.
    repeat (first [ case_match | case_bool_decide ]); done.
  - unfold watcherStep. repeat case_match; done.
Qed.

Lemma inv_exec evs : ∀ s,
  invariant cfg s →
  exec cfg evs s ≠ Panic ∧ ∀ s', exec cfg evs s = Next s' → invariant cfg s'.
Proof.
  induction evs as [|ev evs IH]; intros s H; simpl.
  - split; [done|]. by intros s' [= <-].
  - destruct (step cfg ev s) as [| |s1] eqn:Hstep.
    + done.
    + by destruct (step_no_panic ev s H).
    + apply IH. by eapply inv_step.
Qed.

Lemma reachable_invariant s : reachable cfg s → invariant cfg s.
Proof.
  intros [evs Hevs]. by apply (inv_exec evs (init cfg) inv_init).
Qed.

End Invariant.

(** C10: in every run of the supervisor, whatever was put on the work
    channel, by the seeding of the leaves, by a downstream release or by a
    watcher's timer, is a task of the effective graph and has a status
    record, stored before the dispatch loop starts and never removed; so the
    status lookup of the dispatch loop always finds a record and its type
    assertion never panics. *)
Theorem dispatch_lookup_never_panics cfg evs :
  exec cfg evs (init cfg) ≠ Panic ∧
  ∀ s, exec cfg evs (init cfg) = Next s →
       (∀ t, In t (work s) → In t (tasks cfg) ∧ is_Some (statuses s !! Name t)) ∧
       (∀ k, step cfg (Dispatch k) s ≠ Panic).
Proof.
  destruct (inv_exec cfg evs (init cfg) (inv_init cfg)) as [Hnp Hinv].
  split; [done|]. intros s Hs. specialize (Hinv s Hs). split.
  - intros t Ht. pose proof (inv_work _ _ Hinv t Ht) as Hin.
    split; [done|]. by apply (inv_statuses _ _ Hinv).
  - intros k. by apply dispatch_no_panic.
Qed.

Lemma dispatch_lookup_never_panics_witness :
  exec chain [Seed] (init chain) = Next (stateAfter chain [Seed]) ∧
  work (stateAfter chain [Seed]) = [job "a" []] ∧
  is_Some (statuses (stateAfter chain [Seed]) !! "a") ∧
  ∀ k, step chain (Dispatch k) (stateAfter chain [Seed]) ≠ Panic.
Proof.
  assert (exec chain [Seed] (init chain) = Next (stateAfter chain [Seed])) as H
    by (vm_compute; reflexivity).
  destruct (proj2 (dispatch_lookup_never_panics chain [Seed]) _ H) as [Hwork Hk].
  split; [exact H|]. split; [by vm_compute|]. split; [|exact Hk].
  apply (Hwork (job "a" [])). by left.
Defined.

(** ** The runner *)

Lemma exitRunner_statuses i r s : statuses (exitRunner i r s) = statuses s.
Proof. unfold exitRunner. by destruct (rSem r), (rMutex r). Qed.

Lemma exitRunner_work i r s : work (exitRunner i r s) = work s.
Proof. unfold exitRunner. by destruct (rSem r), (rMutex r). Qed.

Lemma exitRunner_runners i r s :
  runners (exitRunner i r s) =
  <[i := set_rSem false (set_rMutex false (set_rPc PcExited r))]> (runners s).
Proof. unfold exitRunner. by destruct (rSem r), (rMutex r). Qed.

Lemma restartDecision_statuses i r s : statuses (restartDecision i r s) = statuses s.
Proof. unfold restartDecision. case_match; [apply exitRunner_statuses|done]. Qed.

Lemma restartDecision_work i r s : work (restartDecision i r s) = work s.
Proof. unfold restartDecision. case_match; [apply exitRunner_work|done]. Qed.

Lemma success_recorded name (m : gmap string taskStatus) :
  is_Some (m !! name) →
  setBackoff name (fun _ => defaultBackoff) (setReason name "success" m) !! name =
  Some {| reason := "success"; backoff_ := defaultBackoff |}.
Proof.
  intros [st Hst]. unfold setBackoff, setReason.
  by rewrite !lookup_alter_eq, Hst.
Qed.

Lemma reachable_stateAfter cfg evs :
  (∃ s, exec cfg evs (init cfg) = Next s) → reachable cfg (stateAfter cfg evs).
Proof.
  intros [s Hs]. exists evs. unfold stateAfter. by rewrite Hs.
Qed.

(** C5: when the child-process run returns without error, the runner sets
    the task's reason to success, resets its backoff to [defaultBackoff],
    invokes downstream release for the task and, if the task is not a
    restart target, returns. *)
Theorem clean_run_succeeds_and_releases cfg s i r :
  reachable cfg s →
  runners s !! i = Some r →
  rPc r = PcRunning →
  ∃ s', step cfg (RunnerDoes i (RunReturned None)) s = Next s' ∧
        statuses s' !! Name (rTask r) =
          Some {| reason := "success"; backoff_ := defaultBackoff |} ∧
        work s' =
          (work s ++
           maybeStartDownstream (rootDone s) (tasks cfg) (statuses s')
             (Name (rTask r)))%list ∧
        (IsRestart (rTask r) = false →
         ∃ r', runners s' !! i = Some r' ∧ rPc r' = PcExited ∧
               rStarts r' = rStarts r).
Proof.
  intros Hreach Hr Hpc. apply reachable_invariant in Hreach as Hinv.
  assert (is_Some (statuses s !! Name (rTask r))) as Hst.
  { apply (inv_statuses _ _ Hinv), (inv_runners _ _ Hinv). by eapply lookup_In. }
  simpl. rewrite Hr. unfold runnerStep. rewrite Hpc.
  eexists. split; [reflexivity|]. unfold afterRun.
  set (s1 := set_statuses _ s).
  assert (statuses s1 !! Name (rTask r) =
          Some {| reason := "success"; backoff_ := defaultBackoff |}) as Hs1.
  { subst s1. simpl. by apply success_recorded. }
  destruct (IsRestart (rTask r)) eqn:Hre; cbn [negb].
  - rewrite restartDecision_statuses, restartDecision_work.
    split; [exact Hs1|]. split; [reflexivity|]. done.
  - rewrite exitRunner_statuses, exitRunner_work, exitRunner_runners.
    split; [exact Hs1|]. split; [reflexivity|]. intros _. eexists.
    split; [apply list_lookup_insert_eq; by eapply lookup_lt_Some|done].
Qed.

Lemma clean_run_succeeds_and_releases_witness :
  reachable chain chainRunning ∧
  runners chainRunning !! 0 =
    Some (set_rStarts 1 (set_rPc PcRunning (newRunner (job "a" []) 0))) ∧
  ∃ s', step chain (RunnerDoes 0 (RunReturned None)) chainRunning = Next s' ∧
        statuses s' !! "a" = Some (status "success") ∧
        work s' = [job "b" ["a"]] ∧
        (rPc <$> runners s' !! 0) = Some PcExited.
Proof.
  assert (reachable chain chainRunning) as H1.
  { apply reachable_stateAfter. eexists. vm_compute. reflexivity. }
  assert (runners chainRunning !! 0 =
          Some (set_rStarts 1 (set_rPc PcRunning (newRunner (job "a" []) 0)))) as H2.
  { vm_compute. reflexivity. }
  split; [exact H1|]. split; [exact H2|].
  destruct (clean_run_succeeds_and_releases chain chainRunning 0 _ H1 H2 eq_refl)
    as (s' & Hstep & Hst & Hwork & Hexit).
  exists s'. split; [exact Hstep|]. split; [exact Hst|].
  destruct (Hexit eq_refl) as (r' & Hr' & Hpc' & _).
  split; [|by rewrite Hr'; simpl; rewrite Hpc'].
  rewrite Hwork. injection Hstep as <-. vm_compute. reflexivity.
Defined.

(** What the skip branch does in any state: reason success, downstream
    release, no child process, and the runner left at the sleep that ends
    the loop body, from where its next action leads back to the head of the
    loop. *)
Lemma skip_branch_step cfg s i r :
  runners s !! i = Some r →
  rPc r = PcLoopHead →
  processDone s (rTok r) = false →
  ∃ s', step cfg (RunnerDoes i Skipped) s = Next s' ∧
        statuses s' = setReason (Name (rTask r)) "success" (statuses s) ∧
        work s' =
          (work s ++
           maybeStartDownstream (rootDone s) (tasks cfg) (statuses s')
             (Name (rTask r)))%list ∧
        runners s' !! i = Some (set_rPc PcBackoff r) ∧
        ∃ s'', step cfg (RunnerDoes i Proceed) s' = Next s'' ∧
               runners s'' !! i = Some (set_rPc PcLoopHead r) ∧
               statuses s'' = statuses s' ∧ work s'' = work s'.
Proof.
  intros Hr Hpc Hnd. simpl. rewrite Hr. unfold runnerStep at 1. rewrite Hpc, Hnd.
  assert (i < length (runners s)) as Hi by by eapply lookup_lt_Some.
  eexists. split; [reflexivity|]. simpl.
  split; [done|]. split; [done|].
  rewrite list_lookup_insert_eq by done. split; [done|].
  eexists. split; [reflexivity|]. simpl.
  rewrite list_insert_insert_eq, list_lookup_insert_eq by done.
  split; [|done]. by destruct r.
Qed.

(** C3 on the code: the skip branch sets the reason to success and releases
    the downstream [b] without starting the child process, but its [break]
    leaves only the [select].  The runner of [a] stands at the sleep at the
    tail of the loop body; once [b] has been received it goes round the
    loop once more, finds [Skip] true again and releases [b] a second time,
    so that [b] is dispatched twice. *)
Lemma skip_branch_stays_in_loop :
  (reason <$> statuses chainSkipped !! "a") = Some "success" ∧
  work chainSkipped = [job "b" ["a"]] ∧
  (rPc <$> runners chainSkipped !! 0) = Some PcBackoff ∧
  (rStarts <$> runners chainSkipped !! 0) = Some 0 ∧
  ∃ s1 s2,
    exec chain [Dispatch 0; RunnerDoes 0 Proceed] chainSkipped = Next s1 ∧
    (rPc <$> runners s1 !! 0) = Some PcLoopHead ∧ work s1 = [] ∧
    exec chain [RunnerDoes 0 Skipped; Dispatch 0] s1 = Next s2 ∧
    (rPc <$> runners s2 !! 0) = Some PcBackoff ∧
    (rStarts <$> runners s2 !! 0) = Some 0 ∧
    rTask <$> runners s2 = [job "a" []; job "b" ["a"]; job "b" ["a"]].
Proof.
  do 4 (split; [by vm_compute|]).
  eexists. eexists. split; [vm_compute; reflexivity|].
  do 2 (split; [by vm_compute|]).
  split; [vm_compute; reflexivity|]. repeat split; by vm_compute.
Qed.

(** ** Gates *)

(** C4 (amended): once the root token is tripped, a runner that waits for
    a semaphore permit (none is free) gets a failure from the acquisition,
    which is the only way on, and returns without starting the child
    process; [mutex.Lock()] takes no token and cannot fail, so a runner that
    waits for a held mutex takes no action at all while the mutex is held;
    in either case the runner never enters [prc.Run] afterwards. *)
Theorem gate_acquisition_after_cancel cfg s i r :
  runners s !! i = Some r →
  rootDone s = true →
  (rPc r = PcSemaphore → Semaphore (rTask r) ≠ "" →
     (∃ s' r', step cfg (RunnerDoes i AcquireFailed) s = Next s' ∧
               runners s' !! i = Some r' ∧ rPc r' = PcExited ∧
               rStarts r' = rStarts r) ∧
     (permits s !! Semaphore (rTask r) = None ∨
      permits s !! Semaphore (rTask r) = Some 0 →
      ∀ a, a ≠ AcquireFailed → step cfg (RunnerDoes i a) s = Blocked)) ∧
  (rPc r = PcMutex → Mutex (rTask r) ≠ "" → Mutex (rTask r) ∈ locked s →
     ∀ a, step cfg (RunnerDoes i a) s = Blocked) ∧
  (∀ evs s', exec cfg evs s = Next s' →
     ∃ r', runners s' !! i = Some r' ∧ rStarts r' = rStarts r).
Proof.
  intros Hr Hd. split; [|split].
  - intros Hpc Hsem. apply String.eqb_neq in Hsem.
    simpl. rewrite Hr. unfold runnerStep, acquire. rewrite Hpc, Hsem, Hd.
    split.
    + eexists. eexists. split; [reflexivity|].
      rewrite exitRunner_runners.
      split; [apply list_lookup_insert_eq; by eapply lookup_lt_Some|done].
    + intros Hnone a Ha. destruct a; try done.
      by destruct Hnone as [-> | ->].
  - intros Hpc Hmu Hlocked a. apply String.eqb_neq in Hmu.
    simpl. rewrite Hr. unfold runnerStep, lockMutex. rewrite Hpc.
    destruct a; try done. rewrite Hmu. by rewrite bool_decide_eq_true_2.
  - intros evs s' Hexec.
    destruct (exec_after_cancel _ _ _ _ Hd Hexec) as [_ H].
    destruct (H _ _ Hr) as (r' & Hr' & Hst & _). eauto.
Qed.

Lemma gate_acquisition_after_cancel_witness :
  runners gatedCancelled !! 1 =
    Some (set_rPc PcSemaphore (newRunner (withSemaphore "s" (job "y" [])) 1)) ∧
  rootDone gatedCancelled = true ∧
  permits gatedCancelled !! "s" = Some 0 ∧
  (∃ s' r', step gated (RunnerDoes 1 AcquireFailed) gatedCancelled = Next s' ∧
            runners s' !! 1 = Some r' ∧ rPc r' = PcExited ∧ rStarts r' = 0) ∧
  step gated (RunnerDoes 1 Acquired) gatedCancelled = Blocked.
Proof.
  assert (runners gatedCancelled !! 1 =
          Some (set_rPc PcSemaphore (newRunner (withSemaphore "s" (job "y" [])) 1)))
    as H1 by (vm_compute; reflexivity).
  assert (rootDone gatedCancelled = true) as H2 by (vm_compute; reflexivity).
  assert (permits gatedCancelled !! "s" = Some 0) as H3 by (vm_compute; reflexivity).
  split; [exact H1|]. split; [exact H2|]. split; [exact H3|].
  destruct (proj1 (gate_acquisition_after_cancel gated gatedCancelled 1 _ H1 H2)
              eq_refl) as [Hfail Hwait]; [discriminate|].
  split; [exact Hfail|]. apply Hwait; [by right|discriminate].
Defined.

(** C4 as stated fails for a mutex: the root token is tripped while the
    runner of [y] waits for the mutex [m] that the runner of [x] holds, and
    the acquisition does not return: the runner of [y] can take no action,
    so it neither gets a failure nor returns.  When the runner of [x] has
    returned, the acquisition succeeds, cancelled token or not. *)
Lemma mutex_wait_is_not_cancelled :
  rootDone contendedCancelled = true ∧
  (rPc <$> runners contendedCancelled !! 1) = Some PcMutex ∧
  (Mutex ∘ rTask <$> runners contendedCancelled !! 1) = Some "m" ∧
  bool_decide ("m" ∈ locked contendedCancelled) = true ∧
  (∀ a, step contended (RunnerDoes 1 a) contendedCancelled = Blocked) ∧
  ∃ s, exec contended [RunnerDoes 0 (RunReturned (Some true)); RunnerDoes 1 Proceed]
         contendedCancelled = Next s ∧
       (rPc <$> runners s !! 1) = Some PcSemaphore ∧
       (rMutex <$> runners s !! 1) = Some true.
Proof.
  do 4 (split; [by vm_compute|]).
  split; [intros a; destruct a; by vm_compute|].
  eexists. split; [vm_compute; reflexivity|]. split; by vm_compute.
Qed.

(** ** Preemption *)

(** C7 (amended): a runner that finds a prior run registered under its task
    name cancels that run's per-process token, registers its own and moves
    on to gate acquisition in the same action: it does not wait, the other
    runners, the prior one among them, are where they were. *)
Theorem preempt_cancels_without_waiting cfg s i r f :
  runners s !! i = Some r →
  rPc r = PcPreempt →
  stop s !! Name (rTask r) = Some f →
  ∃ s', step cfg (RunnerDoes i Proceed) s = Next s' ∧
        processDone s' f = true ∧
        stop s' !! Name (rTask r) = Some (rTok r) ∧
        runners s' !! i = Some (set_rPc PcMutex r) ∧
        (∀ j, j ≠ i → runners s' !! j = runners s !! j).
Proof.
  intros Hr Hpc Hf. simpl. rewrite Hr. unfold runnerStep. rewrite Hpc, Hf.
  eexists. split; [reflexivity|]. simpl. split; [|split; [|split]].
  - unfold processDone. simpl. apply orb_true_iff. right.
    apply bool_decide_eq_true_2. set_solver.
  - apply lookup_insert_eq.
  - apply list_lookup_insert_eq. by eapply lookup_lt_Some.
  - intros j Hj. by apply list_lookup_insert_ne.
Qed.

Lemma preempt_cancels_without_waiting_witness :
  runners watchedAgain !! 1 = Some (newRunner (withWatch ["main.go"] (job "build" [])) 1) ∧
  stop watchedAgain !! "build" = Some 0 ∧
  ∃ s', step watched (RunnerDoes 1 Proceed) watchedAgain = Next s' ∧
        processDone s' 0 = true ∧
        (rPc <$> runners s' !! 1) = Some PcMutex ∧
        runners s' !! 0 = runners watchedAgain !! 0.
Proof.
  assert (runners watchedAgain !! 1 =
          Some (newRunner (withWatch ["main.go"] (job "build" [])) 1))
    as H1 by (vm_compute; reflexivity).
  assert (stop watchedAgain !! "build" = Some 0) as H2 by (vm_compute; reflexivity).
  split; [exact H1|]. split; [exact H2|].
  destruct (preempt_cancels_without_waiting watched watchedAgain 1 _ 0 H1 eq_refl H2)
    as (s' & Hstep & Hdone & _ & Hi & Hj).
  exists s'. split; [exact Hstep|]. split; [exact Hdone|].
  split; [by rewrite Hi|]. apply Hj. discriminate.
Defined.

(** C7 as stated fails: the second runner of [build] has cancelled the
    token of the first, passed the gates and entered [prc.Run], while the
    first runner is still inside [prc.Run] and has released nothing. *)
Lemma second_run_starts_before_first_returns :
  (Name ∘ rTask <$> runners watchedTwice !! 0) = Some "build" ∧
  (Name ∘ rTask <$> runners watchedTwice !! 1) = Some "build" ∧
  processDone watchedTwice 0 = true ∧
  (rPc <$> runners watchedTwice !! 0) = Some PcRunning ∧
  (rPc <$> runners watchedTwice !! 1) = Some PcRunning ∧
  (rStarts <$> runners watchedTwice !! 1) = Some 1.
Proof. repeat split; by vm_compute. Qed.

(** ** The watch loop *)

(** C8: in the watch loop every file-system event whose [Op] is not
    [Chmod] resets the one timer of the watcher to one second, a [Chmod]
    event changes nothing, and when the timer fires the watched task is
    sent on the work channel. *)
Theorem watch_loop_debounces cfg s j w :
  watchers s !! j = Some w →
  wPc w = WLoop →
  (∀ op, op ≠ Chmod →
     ∃ s', step cfg (WatcherDoes j (FsEvent op)) s = Next s' ∧
           watchers s' !! j = Some (set_timer (Some second) w) ∧
           work s' = work s) ∧
  step cfg (WatcherDoes j (FsEvent Chmod)) s = Next s ∧
  (∀ d, timer w = Some d →
     ∃ s', step cfg (WatcherDoes j TimerFired) s = Next s' ∧
           work s' = (work s ++ [wTask w])%list).
Proof.
  intros Hw Hpc. simpl. rewrite Hw. unfold watcherStep. rewrite Hpc.
  split; [|split].
  - intros op Hop. apply Z.eqb_neq in Hop. rewrite Hop. simpl.
    eexists. split; [reflexivity|]. simpl. split; [|done].
    apply list_lookup_insert_eq. by eapply lookup_lt_Some.
  - done.
  - intros d ->. eexists. split; [reflexivity|]. done.
Qed.

Lemma watch_loop_debounces_witness :
  watchers watchedLoop !! 0 =
    Some (set_timer (Some sentinel)
            (set_wPc WLoop (newWatcher (withWatch ["main.go"] (job "build" [])) 0))) ∧
  (∃ s', step watched (WatcherDoes 0 (FsEvent Write)) watchedLoop = Next s' ∧
         (timer <$> watchers s' !! 0) = Some (Some second)) ∧
  step watched (WatcherDoes 0 (FsEvent Chmod)) watchedLoop = Next watchedLoop.
Proof.
  assert (watchers watchedLoop !! 0 =
          Some (set_timer (Some sentinel)
                  (set_wPc WLoop
                     (newWatcher (withWatch ["main.go"] (job "build" [])) 0))))
    as H1 by (vm_compute; reflexivity).
  split; [exact H1|].
  destruct (watch_loop_debounces watched watchedLoop 0 _ H1 eq_refl)
    as (Hev & Hchmod & _).
  split; [|exact Hchmod].
  destruct (Hev Write) as (s' & Hstep & Hw & _); [discriminate|].
  exists s'. split; [exact Hstep|]. by rewrite Hw.
Defined.

(** * Further properties of [main] *)

(** ** Startup *)

(** The configuration is accepted exactly when it was read and parsed and
    has the expected [apiVersion], the expected [kind] and a name; the
    checks are made in this order, and the first one that fails gives the
    error. *)
Theorem startup_accepts_iff cfg pod :
  (startup cfg = inr pod ↔
   cfg = Parsed pod ∧ ApiVersion pod = "kit/v1" ∧ Kind pod = "Tasks" ∧
   MetadataName pod ≠ "") ∧
  (ApiVersion pod ≠ "kit/v1" →
   startup (Parsed pod) = inl "invalid apiVersion, must be 'kit/v1") ∧
  (ApiVersion pod = "kit/v1" → Kind pod ≠ "Tasks" →
   startup (Parsed pod) = inl "invalid kind, must be 'Tasks'") ∧
  (ApiVersion pod = "kit/v1" → Kind pod = "Tasks" → MetadataName pod = "" →
   startup (Parsed pod) = inl "metadata.name is required").
Proof.
  split; [|split; [|split]].
  - destruct cfg as [e|e|p]; simpl; [split; [done|by intros [? _]]..|].
    destruct (ApiVersion p =? "kit/v1") eqn:Ha; simpl.
    + destruct (Kind p =? "Tasks") eqn:Hk; simpl.
      * destruct (MetadataName p =? "") eqn:Hn.
        -- apply String.eqb_eq in Hn. split; [done|].
           intros ([= ->] & _ & _ & Hne). done.
        -- apply String.eqb_eq in Ha, Hk. apply String.eqb_neq in Hn.
           split; [by intros [= ->]|by intros ([= ->] & _)].
      * apply String.eqb_neq in Hk. split; [done|].
        intros ([= ->] & _ & Hk' & _). done.
    + apply String.eqb_neq in Ha. split; [done|].
      intros ([= ->] & Ha' & _). done.
  - intros Ha. apply String.eqb_neq in Ha. simpl. by rewrite Ha.
  - intros Ha Hk. apply String.eqb_neq in Hk. simpl. by rewrite Ha, Hk.
  - intros Ha Hk Hn. simpl. by rewrite Ha, Hk, Hn.
Qed.

(** ** The status table at the start *)

Lemma initStatuses_fold_lookup tasks : ∀ (m : gmap string taskStatus) name,
  fold_left
    (fun m t => <[Name t := {| reason := "waiting"; backoff_ := defaultBackoff |}]> m)
    tasks m !! name =
  if existsb (fun t => Name t =? name) tasks
  then Some {| reason := "waiting"; backoff_ := defaultBackoff |}
  else m !! name.
Proof.
  induction tasks as [|t tasks IH]; intros m name; simpl; [done|].
  rewrite IH. destruct (existsb _ tasks); [by rewrite orb_true_r|].
  rewrite orb_false_r. destruct (Name t =? name) eqn:Hn.
  - apply String.eqb_eq in Hn as ->. apply lookup_insert_eq.
  - apply String.eqb_neq in Hn. by apply lookup_insert_ne.
Qed.

(** Before anything runs, the status table holds a record, waiting with the
    default backoff, for every name of a task of the graph, and no record
    for any other name. *)
Theorem initStatuses_spec tasks name :
  (named tasks name →
   initStatuses tasks !! name =
     Some {| reason := "waiting"; backoff_ := defaultBackoff |}) ∧
  (¬ named tasks name → initStatuses tasks !! name = None).
Proof.
  unfold initStatuses, named. rewrite initStatuses_fold_lookup.
  destruct (existsb _ tasks) eqn:He.
  - split; [done|]. intros Hn. destruct Hn.
    apply existsb_exists in He as (t & Ht & Hname).
    apply String.eqb_eq in Hname. by exists t.
  - split; [|done]. intros (t & Ht & Hname). exfalso.
    apply not_true_iff_false in He. apply He, existsb_exists.
    exists t. split; [done|]. by apply String.eqb_eq.
Qed.

(** ** The final scan *)

Lemma erroredNever_test (sts : gmap string taskStatus) t :
  match sts !! Name t with
  | Some v => (reason v =? "error") && (GetRestartPolicy t =? "Never")
  | None => false
  end = true ↔ erroredNever sts t.
Proof.
  unfold erroredNever. destruct (sts !! Name t) as [st|].
  - rewrite andb_true_iff, !String.eqb_eq. split.
    + intros [Hr Hp]. split; [done|]. by exists st.
    + intros (Hp & st' & [= <-] & Hr). done.
  - split; [done|]. by intros (_ & st & ? & _).
Qed.

(** The failure the final scan returns names the first task, in the order
    of the graph, that is in error with restart policy Never; tasks after it
    are not looked at. *)
Theorem finalScan_first tasks (sts : gmap string taskStatus) msg :
  finalScan tasks sts = Some msg ↔
  ∃ before t after,
    tasks = (before ++ t :: after)%list ∧
    (∀ u, In u before → ¬ erroredNever sts u) ∧
    erroredNever sts t ∧ msg = Name t ++ " errored".
Proof.
  induction tasks as [|t rest IH]; simpl.
  - split; [done|]. intros (b & u & a & H & _). by destruct b.
  - pose proof (erroredNever_test sts t) as Htest.
    destruct (sts !! Name t) as [st|] eqn:Hst.
    + destruct ((reason st =? "error") && (GetRestartPolicy t =? "Never")) eqn:Hc.
      * split.
        -- intros [= <-]. exists [], t, rest. split; [done|].
           split; [by intros ? []|]. split; [by apply Htest|done].
        -- intros (b & u & a & Heq & Hb & Hu & ->). destruct b as [|v b].
           ++ by injection Heq as -> _.
           ++ injection Heq as -> _. destruct (Hb v); [by left|by apply Htest].
      * rewrite IH. split.
        -- intros (b & u & a & -> & Hb & Hu & ->). exists (t :: b), u, a.
           split; [done|]. split; [|done].
           intros v [<-|Hv]; [|by apply Hb]. intros Hv. by apply Htest in Hv.
        -- intros (b & u & a & Heq & Hb & Hu & ->). destruct b as [|v b].
           ++ injection Heq as -> _. by apply Htest in Hu.
           ++ injection Heq as -> ->. exists b, u, a. split; [done|].
              split; [|done]. intros w Hw. apply Hb. by right.
    + rewrite IH. split.
      * intros (b & u & a & -> & Hb & Hu & ->). exists (t :: b), u, a.
        split; [done|]. split; [|done].
        intros v [<-|Hv]; [|by apply Hb]. intros Hv. by apply Htest in Hv.
      * intros (b & u & a & Heq & Hb & Hu & ->). destruct b as [|v b].
        -- injection Heq as -> _. by apply Htest in Hu.
        -- injection Heq as -> ->. exists b, u, a. split; [done|].
           split; [|done]. intros w Hw. apply Hb. by right.
Qed.

(** The fatal-error predicate of the termination check and the final scan
    agree on every status table: the scan returns a failure exactly when
    the check would trip the root token for an error. *)
Theorem anyError_iff_finalScan tasks (sts : gmap string taskStatus) :
  anyError tasks sts = true ↔ ∃ msg, finalScan tasks sts = Some msg.
Proof.
  rewrite anyError_spec, <- finalScan_spec.
  destruct (finalScan tasks sts) as [msg|]; split; try done.
  - intros _. by exists msg.
  - by intros [msg ?].
Qed.

(** ** The colour of the log prefix *)

Lemma wrap64_small z : (- 2 ^ 63 ≤ z < 2 ^ 63)%Z → wrap64 z = z.
Proof. intros H. unfold wrap64. rewrite Z.mod_small; lia. Qed.

Lemma code_sum runes : ∀ acc,
  (0 ≤ acc)%Z →
  Forall (fun x => (0 ≤ x ≤ maxRune)%Z) runes →
  (acc + Z.of_nat (length runes) * maxRune < 2 ^ 63)%Z →
  fold_left (fun code x => wrap64 (code + x)) runes acc =
    (acc + foldr Z.add 0 runes)%Z ∧
  (0 ≤ foldr Z.add 0 runes ≤ Z.of_nat (length runes) * maxRune)%Z.
Proof.
  unfold maxRune.
  induction runes as [|x runes IH]; intros acc Hacc Hall Hlen;
    cbn [fold_left foldr].
  - cbn [length]. split; lia.
  - apply Forall_cons in Hall as [Hx Hall].
    rewrite length_cons, Nat2Z.inj_succ in *.
    rewrite wrap64_small by lia.
    destruct (IH (acc + x)%Z) as [-> Hsum]; [lia|done|lia|]. split; lia.
Qed.

Lemma sum_Permutation (l l' : list Z) :
  Permutation l l' → foldr Z.add 0%Z l = foldr Z.add 0%Z l'.
Proof. induction 1; simpl; lia. Qed.

(** For a name whose code points add up within [int] (any name of fewer
    than 2^42 runes), the colour code of the log prefix is 30 plus the sum
    of the code points modulo 7: one of the SGR colours 30 to 36, the same
    for any two names with the same code points in another order. *)
Theorem prefixCode_range runes :
  Forall (fun x => (0 ≤ x ≤ maxRune)%Z) runes →
  (Z.of_nat (length runes) * maxRune < 2 ^ 63)%Z →
  prefixCode runes = (30 + foldr Z.add 0 runes mod 7)%Z ∧
  (30 ≤ prefixCode runes ≤ 36)%Z ∧
  ∀ runes', Permutation runes runes' → prefixCode runes' = prefixCode runes.
Proof.
  assert (∀ l, Forall (fun x => (0 ≤ x ≤ maxRune)%Z) l →
               (Z.of_nat (length l) * maxRune < 2 ^ 63)%Z →
               prefixCode l = (30 + foldr Z.add 0 l mod 7)%Z) as Hcode.
  { intros l Hall Hlen. unfold prefixCode.
    destruct (code_sum l 0%Z) as [-> Hsum]; [lia|done|unfold maxRune in *; lia|].
    unfold maxRune in *.
    rewrite Z.add_0_l, Z.rem_mod_nonneg by lia.
    pose proof (Z.mod_pos_bound (foldr Z.add 0%Z l) 7).
    apply wrap64_small. lia. }
  intros Hall Hlen. split; [by apply Hcode|]. split.
  - rewrite Hcode by done. pose proof (Z.mod_pos_bound (foldr Z.add 0%Z runes) 7). lia.
  - intros runes' Hperm. rewrite !Hcode; try done.
    + by rewrite (sum_Permutation _ _ Hperm).
    + by rewrite <- Hperm.
    + by rewrite <- (Permutation_length Hperm).
Qed.

Lemma prefixCode_range_witness :
  Forall (fun x => (0 ≤ x ≤ maxRune)%Z) [98; 117; 105; 108; 100]%Z ∧
  prefixCode [98; 117; 105; 108; 100]%Z = 33%Z ∧
  prefixCode [100; 108; 105; 117; 98]%Z = 33%Z.
Proof.
  assert (Forall (fun x => (0 ≤ x ≤ maxRune)%Z) [98; 117; 105; 108; 100]%Z) as H.
  { repeat constructor; unfold maxRune; lia. }
  assert (Z.of_nat (length [98; 117; 105; 108; 100]%Z) * maxRune < 2 ^ 63)%Z as Hlen.
  { by vm_compute. }
  destruct (prefixCode_range _ H Hlen) as (Hcode & _ & Hperm).
  split; [exact H|]. split; [by rewrite Hcode|].
  rewrite (Hperm [100; 108; 105; 117; 98]%Z); [by rewrite Hcode|].
  apply (Permutation_rev [98; 117; 105; 108; 100]%Z).
Defined.

(** ** The command line *)

(** Whether files are watched is decided by the [-W] flag alone: defining
    the flag stores its default, false, in [noWatch], so what [WATCH] and
    [KIT_WATCH] say is lost; unless [-W] is given, every dispatch starts a
    watch goroutine. *)
Theorem noWatch_only_by_flag getenv cl :
  (optNoWatch (parseFlags getenv cl) = true ↔ givenW cl = Some true) ∧
  (∀ getenv', optNoWatch (parseFlags getenv' cl) = optNoWatch (parseFlags getenv cl)) ∧
  (∀ neededFor pod k t s s',
     givenW cl ≠ Some true →
     dispatch (configOf (parseFlags getenv cl) neededFor pod) k t s = Next s' →
     watchers s' = (watchers s ++ [newWatcher t (length (runners s))])%list).
Proof.
  split; [|split].
  - simpl. unfold flagVar. destruct (givenW cl) as [[]|]; simpl; split; done.
  - done.
  - intros neededFor pod k t s s' Hw. unfold dispatch. simpl. unfold flagVar.
    destruct (statuses s !! Name t); [|done]. intros [= <-]. simpl.
    by destruct (givenW cl) as [[]|].
Qed.


(** ** The status table while the supervisor runs *)

Lemma exec_preserves cfg (P : State → Prop) :
  (∀ ev s s', P s → step cfg ev s = Next s' → P s') →
  ∀ evs s s', P s → exec cfg evs s = Next s' → P s'.
Proof.
  intros Hstep. induction evs as [|ev evs IH]; intros s s' Hs; simpl.
  - by intros [= <-].
  - destruct (step cfg ev s) as [| |s1] eqn:Hev; try done.
    apply IH. by eapply Hstep.
Qed.

Lemma reachable_preserves cfg (P : State → Prop) :
  P (init cfg) →
  (∀ ev s s', P s → step cfg ev s = Next s' → P s') →
  ∀ s, reachable cfg s → P s.
Proof. intros Hinit Hstep s [evs Hs]. by eapply exec_preserves. Qed.

Lemma edited_lookup_ne name (m m' : gmap string taskStatus) k :
  edited name m m' → k ≠ name → m' !! k = m !! k.
Proof.
  induction 1 as [|r m' Hr _ IH|f m' _ IH]; intros Hk; [done|..];
    unfold setReason, setBackoff; rewrite lookup_alter_ne by done; auto.
Qed.

Lemma edited_is_Some name (m m' : gmap string taskStatus) k :
  edited name m m' → is_Some (m' !! k) ↔ is_Some (m !! k).
Proof.
  induction 1 as [|r m' Hr _ IH|f m' _ IH]; [done|..];
    unfold setReason, setBackoff; by rewrite lookup_alter_is_Some.
Qed.

Lemma edited_reasons name (m m' : gmap string taskStatus) :
  edited name m m' →
  (∀ k st, m !! k = Some st → In (reason st) reasons) →
  ∀ k st, m' !! k = Some st → In (reason st) reasons.
Proof.
  induction 1 as [|r m' Hr _ IH|f m' _ IH]; intros Hm k st; [by apply Hm|..];
    unfold setReason, setBackoff; rewrite lookup_alter;
    case_decide; try (by apply IH);
    destruct (m' !! name) as [st'|] eqn:Hst'; simpl; try done;
    intros [= <-]; simpl; [done|]. by eapply IH.
Qed.

(** Only a runner writes to the status table, and only through the status
    pointer of its own task. *)
Lemma step_edits cfg ev s s' :
  step cfg ev s = Next s' →
  match ev with
  | RunnerDoes i a =>
      ∃ r, runners s !! i = Some r ∧
           edited (Name (rTask r)) (statuses s) (statuses s')
  | _ => statuses s' = statuses s
  end.
Proof.
  destruct ev as [| | | |k|i a|j e]; simpl.
  - case_match; [|done]. by intros [= <-].
  - by intros [= <-].
  - case_match; [|done]. by intros [= <-].
  - case_match; by intros [= <-].
  - repeat case_match; try done. unfold dispatch. case_match; [|done].
    by intros [= <-].
  - destruct (runners s !! i) as [r|] eqn:Hr; [|done]. intros Hstep.
    exists r. split; [done|]. revert Hstep.
    runner_cases r a; intros ?; simplify_eq; cbn -[setReason setBackoff]; edits.
  - destruct (watchers s !! j) as [w|] eqn:Hw; [|done]. intros Hstep.
    by destruct (watcherStep_frame _ _ _ _ _ Hw Hstep) as (_ & -> & _).
Qed.

Lemma named_existsb tasks name :
  existsb (fun t => Name t =? name) tasks = true ↔ named tasks name.
Proof.
  unfold named. rewrite existsb_exists.
  split; intros (t & Ht & Hn); exists t; (split; [done|]); by apply String.eqb_eq.
Qed.

(** In every state the supervisor reaches, the status table has a record
    exactly for the names of the tasks of the graph, and the reason of every
    record is one of waiting, starting, running, success and error. *)
Theorem status_table_invariant cfg s :
  reachable cfg s →
  (∀ name, is_Some (statuses s !! name) ↔ named (tasks cfg) name) ∧
  (∀ name st, statuses s !! name = Some st → In (reason st) reasons).
Proof.
  revert s. apply reachable_preserves.
  - simpl. unfold initStatuses. split.
    + intros name. rewrite initStatuses_fold_lookup, lookup_empty.
      rewrite <- named_existsb. by destruct (existsb _ (tasks cfg)).
    + intros name st. rewrite initStatuses_fold_lookup, lookup_empty.
      destruct (existsb _ (tasks cfg)); [|done]. intros [= <-]. by left.
  - intros ev s s' [Hdom Hreason] Hstep. apply step_edits in Hstep.
    destruct ev; try (by rewrite Hstep).
    destruct Hstep as (r & _ & Hed). split.
    + intros name. by rewrite (edited_is_Some _ _ _ name Hed).
    + by eapply edited_reasons.
Qed.

Lemma status_table_invariant_witness :
  reachable chain chainRunning ∧
  (reason <$> statuses chainRunning !! "a") = Some "running" ∧
  (reason <$> statuses chainRunning !! "b") = Some "waiting" ∧
  statuses chainRunning !! "c" = None ∧
  (∀ name, is_Some (statuses chainRunning !! name) ↔ named (tasks chain) name).
Proof.
  assert (reachable chain chainRunning) as H.
  { apply reachable_stateAfter. eexists. vm_compute. reflexivity. }
  split; [exact H|]. do 3 (split; [by vm_compute|]).
  exact (proj1 (status_table_invariant chain chainRunning H)).
Defined.

(** A record of the status table changes only by an action of a runner of
    the task of that name: no runner writes to the record of another task,
    and the watchers, the dispatch loop and the other goroutines of the
    supervisor write to none. *)
Theorem status_written_by_owner_only cfg ev s s' name :
  step cfg ev s = Next s' →
  statuses s' !! name ≠ statuses s !! name →
  ∃ i a r, ev = RunnerDoes i a ∧ runners s !! i = Some r ∧ Name (rTask r) = name.
Proof.
  intros Hstep Hne. apply step_edits in Hstep.
  destruct ev as [| | | |k|i a|j e]; try (by rewrite Hstep in Hne).
  destruct Hstep as (r & Hr & Hed). exists i, a, r. split; [done|]. split; [done|].
  destruct (decide (name = Name (rTask r))) as [->|Hn]; [done|].
  destruct Hne. by eapply edited_lookup_ne.
Qed.

Lemma status_written_by_owner_only_witness :
  step chain (RunnerDoes 0 (RunReturned None)) chainRunning = Next chainDone ∧
  statuses chainDone !! "a" ≠ statuses chainRunning !! "a" ∧
  ∃ i a r, RunnerDoes 0 (RunReturned None) = RunnerDoes i a ∧
           runners chainRunning !! i = Some r ∧ Name (rTask r) = "a".
Proof.
  assert (step chain (RunnerDoes 0 (RunReturned None)) chainRunning = Next chainDone)
    as Hstep by (vm_compute; reflexivity).
  assert (statuses chainDone !! "a" ≠ statuses chainRunning !! "a") as Hne
    by (by vm_compute).
  split; [exact Hstep|]. split; [exact Hne|].
  exact (status_written_by_owner_only chain _ _ _ "a" Hstep Hne).
Defined.

(** ** What is sent on the work channel, and when *)

(** The work channel changes in these ways only: the dispatch loop takes a
    send off it; the seeding goroutine sends a leaf; a timer sends its
    watched task; and the skip branch, a clean return of the child process
    and the ready callback of the readiness probe send what the downstream
    release finds at that moment.  Every other action leaves the channel
    alone: a failed or cancelled run, a failed setup, the start of the
    child process and an unready probe release nothing. *)
Theorem work_changes_only_by cfg ev s s' :
  step cfg ev s = Next s' →
  match ev with
  | Dispatch k => work s' = delete k (work s)
  | Seed => ∃ t, GetLeaves (tasks cfg) !! seeded s = Some t ∧
                 work s' = (work s ++ [t])%list
  | WatcherDoes j TimerFired =>
      ∃ w, watchers s !! j = Some w ∧ work s' = (work s ++ [wTask w])%list
  | RunnerDoes i Skipped | RunnerDoes i (RunReturned None)
  | RunnerDoes i ProbeReady =>
      ∃ r, runners s !! i = Some r ∧
           work s' =
             (work s ++
              maybeStartDownstream (rootDone s) (tasks cfg) (statuses s')
                (Name (rTask r)))%list
  | _ => work s' = work s
  end.
Proof.
  destruct ev as [| | | |k|i a|j e]; simpl.
  - case_match; [|done]. intros [= <-]. by eexists.
  - by intros [= <-].
  - case_match; [|done]. by intros [= <-].
  - case_match; by intros [= <-].
  - repeat case_match; try done. unfold dispatch. case_match; [|done].
    by intros [= <-].
  - destruct (runners s !! i) as [r|] eqn:Hr; [|done].
    runner_cases r a; intros ?; simplify_eq; cbn -[setReason setBackoff];
      try done; by exists r.
  - destruct (watchers s !! j) as [w|] eqn:Hw; [|done].
    watcher_cases w e; intros [= <-]; simpl; try done. by exists w.
Qed.

Lemma work_changes_only_by_witness :
  step chain (RunnerDoes 0 (RunReturned (Some false))) chainRunning = Next chainFailed ∧
  (reason <$> statuses chainFailed !! "a") = Some "error" ∧
  work chainFailed = work chainRunning.
Proof.
  assert (step chain (RunnerDoes 0 (RunReturned (Some false))) chainRunning =
          Next chainFailed) as Hstep by (vm_compute; reflexivity).
  split; [exact Hstep|]. split; [by vm_compute|].
  exact (work_changes_only_by chain _ _ _ Hstep).
Defined.

(** ** Runs that end in an error *)

Lemma error_recorded name (m : gmap string taskStatus) st :
  m !! name = Some st →
  setBackoff name next (setReason name "error" m) !! name =
  Some {| reason := "error"; backoff_ := next (backoff_ st) |}.
Proof.
  intros Hst. unfold setBackoff, setReason. by rewrite !lookup_alter_eq, Hst.
Qed.

(** When the child process returns an error that is not a cancellation,
    the runner sets the reason to error and advances the backoff, then
    returns if the restart policy is Never and goes to the backoff sleep
    otherwise; when the error is a cancellation the runner returns at once,
    gates released, and leaves the status record as it was. *)
Theorem run_error_classified cfg s i r :
  reachable cfg s →
  runners s !! i = Some r →
  rPc r = PcRunning →
  (∃ s' st r',
     step cfg (RunnerDoes i (RunReturned (Some false))) s = Next s' ∧
     statuses s !! Name (rTask r) = Some st ∧
     statuses s' !! Name (rTask r) =
       Some {| reason := "error"; backoff_ := next (backoff_ st) |} ∧
     runners s' !! i = Some r' ∧ rStarts r' = rStarts r ∧
     rPc r' = if GetRestartPolicy (rTask r) =? "Never" then PcExited else PcBackoff) ∧
  (∃ s' r',
     step cfg (RunnerDoes i (RunReturned (Some true))) s = Next s' ∧
     statuses s' = statuses s ∧
     runners s' !! i = Some r' ∧ rPc r' = PcExited ∧
     rMutex r' = false ∧ rSem r' = false).
Proof.
  intros Hreach Hr Hpc. apply reachable_invariant in Hreach as Hinv.
  assert (is_Some (statuses s !! Name (rTask r))) as [st Hst].
  { apply (inv_statuses _ _ Hinv), (inv_runners _ _ Hinv). by eapply lookup_In. }
  assert (i < length (runners s)) as Hi by by eapply lookup_lt_Some.
  simpl. rewrite Hr. unfold runnerStep. rewrite Hpc. unfold afterRun. split.
  - unfold restartDecision. destruct (GetRestartPolicy (rTask r) =? "Never").
    + eexists. exists st. eexists. split; [reflexivity|]. split; [done|].
      rewrite exitRunner_statuses, exitRunner_runners. simpl.
      split; [by apply error_recorded|].
      split; [by apply list_lookup_insert_eq|done].
    + eexists. exists st. eexists. split; [reflexivity|]. split; [done|].
      simpl. split; [by apply error_recorded|].
      split; [by apply list_lookup_insert_eq|done].
  - eexists. eexists. split; [reflexivity|].
    rewrite exitRunner_statuses, exitRunner_runners.
    split; [done|]. split; [by apply list_lookup_insert_eq|done].
Qed.

Lemma run_error_classified_witness :
  reachable chain chainRunning ∧
  step chain (RunnerDoes 0 (RunReturned (Some false))) chainRunning = Next chainFailed ∧
  statuses chainFailed !! "a" =
    Some {| reason := "error"; backoff_ := next defaultBackoff |} ∧
  (rPc <$> runners chainFailed !! 0) = Some PcExited ∧
  ∃ s' r', step chain (RunnerDoes 0 (RunReturned (Some true))) chainRunning = Next s' ∧
           statuses s' = statuses chainRunning ∧
           runners s' !! 0 = Some r' ∧ rPc r' = PcExited.
Proof.
  assert (reachable chain chainRunning) as H1.
  { apply reachable_stateAfter. eexists. vm_compute. reflexivity. }
  assert (runners chainRunning !! 0 =
          Some (set_rStarts 1 (set_rPc PcRunning (newRunner (job "a" []) 0)))) as H2.
  { vm_compute. reflexivity. }
  split; [exact H1|]. split; [vm_compute; reflexivity|].
  do 2 (split; [by vm_compute|]).
  destruct (proj2 (run_error_classified chain chainRunning 0 _ H1 H2 eq_refl))
    as (s' & r' & Hstep & Hst & Hr' & Hpc' & _).
  by exists s', r'.
Defined.

(** ** The status line *)

Lemma reasonColour_nonempty r : In r reasons → reasonColour r ≠ "".
Proof.
  unfold reasons. simpl. intros [<-|[<-|[<-|[<-|[<-|[]]]]]]; by vm_compute.
Qed.

Lemma taskCells_filter hostPorts (sts : gmap string taskStatus) f pod :
  (∀ t, In t pod → is_Some (sts !! Name t) ↔ f t = true) →
  taskCells hostPorts pod sts = taskCells hostPorts (List.filter f pod) sts ∧
  length (taskCells hostPorts pod sts) = length (List.filter f pod).
Proof.
  induction pod as [|t pod IH]; intros Hf; simpl; [done|].
  destruct IH as [IH1 IH2]; [intros u Hu; apply Hf; by right|].
  pose proof (Hf t (or_introl eq_refl)) as Ht.
  destruct (sts !! Name t) as [st|] eqn:Hst.
  - rewrite (proj1 Ht) by done. simpl. rewrite Hst. split; congruence.
  - destruct (f t) eqn:Hft; [|done].
    by destruct (proj2 Ht eq_refl).
Qed.

Lemma taskCells_In hostPorts (sts : gmap string taskStatus) pod t st :
  In t pod → sts !! Name t = Some st →
  In (taskCell hostPorts t st) (taskCells hostPorts pod sts).
Proof.
  induction pod as [|u pod IH]; simpl; [done|].
  intros [->|Ht] Hst.
  - rewrite Hst. by left.
  - destruct (sts !! Name u); [right|]; by apply IH.
Qed.

(** In every state the supervisor reaches, the status line has one cell
    for each task of the pod whose name is the name of a task of the
    effective graph, in the order of the pod, and none for the other tasks
    of the pod; and every cell starts with the colour of its reason. *)
Theorem printTasks_shows_graph cfg s hostPorts pod height :
  reachable cfg s →
  printTasks hostPorts pod (statuses s) height =
    printTasks hostPorts (List.filter (inGraph (tasks cfg)) pod) (statuses s) height ∧
  length (taskCells hostPorts pod (statuses s)) =
    length (List.filter (inGraph (tasks cfg)) pod) ∧
  ∀ t, In t pod → inGraph (tasks cfg) t = true →
       ∃ st, statuses s !! Name t = Some st ∧
             In (taskCell hostPorts t st) (taskCells hostPorts pod (statuses s)) ∧
             reasonColour (reason st) ≠ "".
Proof.
  intros Hreach. destruct (status_table_invariant cfg s Hreach) as [Hdom Hreason].
  assert (∀ t, is_Some (statuses s !! Name t) ↔ inGraph (tasks cfg) t = true) as Hin.
  { intros t. rewrite Hdom. unfold inGraph. by rewrite named_existsb. }
  destruct (taskCells_filter hostPorts (statuses s) (inGraph (tasks cfg)) pod)
    as [Hcells Hlen]; [by intros t _|].
  split; [unfold printTasks; by rewrite Hcells|]. split; [done|].
  intros t Ht Hg. apply Hin in Hg as [st Hst]. exists st. split; [done|].
  split; [by apply taskCells_In|]. by eapply reasonColour_nonempty, Hreason.
Qed.

Lemma printTasks_shows_graph_witness :
  reachable chain chainRunning ∧
  List.filter (inGraph (tasks chain)) chainPod = [job "a" []; job "b" ["a"]] ∧
  length (taskCells (fun _ => "[]") chainPod (statuses chainRunning)) = 2 ∧
  printTasks (fun _ => "[]") chainPod (statuses chainRunning) 0 =
    esc +:+ "[H" +:+ esc +:+ "[2K" +:+
    esc +:+ "[32ma running " +:+ esc +:+ "[2m[]   " +:+ esc +:+ "[0m" +:+
    esc +:+ "[2mb waiting " +:+ esc +:+ "[2m[]   " +:+ esc +:+ "[0m" +:+
    esc +:+ "[K" +:+ newline +:+ esc +:+ "[24;0H".
Proof.
  assert (reachable chain chainRunning) as H.
  { apply reachable_stateAfter. eexists. vm_compute. reflexivity. }
  split; [exact H|]. split; [by vm_compute|].
  destruct (printTasks_shows_graph chain chainRunning (fun _ => "[]") chainPod 0 H)
    as (Hprint & Hlen & _).
  split; [by rewrite Hlen|]. rewrite Hprint. by vm_compute.
Defined.

(** ** Cancellation and the closing of the work channel *)

Lemma runnerStep_control cfg i r a s s' :
  runnerStep cfg i r a s = Next s' →
  closed s' = closed s ∧ terminating s' = terminating s ∧
  rootDone s' = rootDone s ∧ procDone s ⊆ procDone s' ∧
  length (runners s') = length (runners s).
Proof.
  runner_cases r a; intros ?; simplify_eq; simpl; rewrite ?length_insert;
    repeat split; try done; set_solver.
Qed.

(** What an action does to the tokens, to the work channel's end and to the
    number of runners. *)
Lemma step_control cfg ev s s' :
  step cfg ev s = Next s' →
  (rootDone s = true → rootDone s' = true) ∧
  (∀ tok, processDone s tok = true → processDone s' tok = true) ∧
  match ev with
  | CloseWork =>
      rootDone s = true ∧ closed s = false ∧ closed s' = true ∧ terminating s' = true
  | _ => closed s' = closed s ∧ terminating s' = terminating s
  end ∧
  match ev with
  | Dispatch _ => closed s = false ∧ length (runners s') = S (length (runners s))
  | _ => length (runners s') = length (runners s)
  end.
Proof.
  destruct ev as [| | | |k|i a|j e]; simpl.
  - case_match; [|done]. by intros [= <-].
  - intros [= <-]. unfold processDone. simpl. done.
  - destruct (rootDone s) eqn:Hd, (closed s) eqn:Hc; simpl; try done.
    by intros [= <-].
  - case_match; intros [= <-]; unfold processDone; simpl; done.
  - destruct (closed s) eqn:Hc; [done|]. case_match; [|done]. unfold dispatch.
    case_match; [|done]. intros [= <-]. unfold processDone. simpl.
    rewrite length_app. simpl. repeat split; try done. lia.
  - destruct (runners s !! i) as [r|] eqn:Hr; [|done]. intros Hstep.
    destruct (runnerStep_control _ _ _ _ _ _ Hstep) as (-> & -> & Hroot & Hproc & ->).
    unfold processDone. rewrite Hroot. repeat split; try done.
    intros tok Htok. apply orb_true_iff in Htok as [->|Htok]; [done|].
    apply orb_true_iff. right. apply bool_decide_eq_true.
    apply bool_decide_eq_true in Htok. set_solver.
  - destruct (watchers s !! j) as [w|] eqn:Hw; [|done].
    watcher_cases w e; intros [= <-]; unfold processDone; simpl; done.
Qed.

(** The work channel is closed, and [terminating] set, only once the root
    token is tripped, and both together; after the close the dispatch loop
    has ended: the channel stays closed and no runner is started any more,
    whatever is still sent. *)
Theorem work_closed_only_after_cancel cfg s :
  reachable cfg s →
  terminating s = closed s ∧
  (closed s = true →
   rootDone s = true ∧
   ∀ evs s', exec cfg evs s = Next s' →
             closed s' = true ∧ length (runners s') = length (runners s)).
Proof.
  intros Hreach.
  assert (terminating s = closed s ∧ (closed s = true → rootDone s = true)) as [Ht Hc].
  { revert s Hreach. apply reachable_preserves; [done|].
    intros ev s s' [Ht Hc] Hstep.
    destruct (step_control _ _ _ _ Hstep) as (Hroot & _ & Hclose & _).
    destruct ev; try (destruct Hclose as [-> ->]; by auto).
    destruct Hclose as (Hd & _ & -> & ->). auto. }
  split; [done|]. intros Hclosed. split; [auto|]. intros evs s'.
  apply (exec_preserves cfg
           (fun s' => closed s' = true ∧ length (runners s') = length (runners s)));
    [|done].
  intros ev s1 s2 [Hc1 Hlen] Hstep.
  destruct (step_control _ _ _ _ Hstep) as (_ & _ & Hclose & Hrun).
  destruct ev; try (destruct Hclose as [-> _]; by rewrite Hrun).
  - destruct Hclose as (_ & Hopen & _). congruence.
  - destruct Hrun as [Hopen _]. congruence.
Qed.

Lemma work_closed_only_after_cancel_witness :
  reachable chain (stateAfter chain [Seed; Signal; CloseWork]) ∧
  closed (stateAfter chain [Seed; Signal; CloseWork]) = true ∧
  work (stateAfter chain [Seed; Signal; CloseWork]) = [job "a" []] ∧
  rootDone (stateAfter chain [Seed; Signal; CloseWork]) = true ∧
  step chain (Dispatch 0) (stateAfter chain [Seed; Signal; CloseWork]) = Blocked.
Proof.
  assert (reachable chain (stateAfter chain [Seed; Signal; CloseWork])) as H.
  { apply reachable_stateAfter. eexists. vm_compute. reflexivity. }
  assert (closed (stateAfter chain [Seed; Signal; CloseWork]) = true) as Hc
    by (by vm_compute).
  split; [exact H|]. split; [exact Hc|]. split; [by vm_compute|].
  split; [|by vm_compute].
  exact (proj1 (proj2 (work_closed_only_after_cancel chain _ H) Hc)).
Defined.

(** ** Watch goroutines that have returned *)

Lemma watcherStep_ok j w e s s' :
  watchers s !! j = Some w →
  watcherOk s w →
  watcherStep j w e s = Next s' →
  ∃ w', watchers s' = <[j := w']> (watchers s) ∧ watcherOk s' w'.
Proof.
  intros Hw [Htimer Hdone]. unfold watcherOk.
  watcher_cases w e; intros [= <-]; unfold processDone in *; simpl;
    first [ (eexists; split; [reflexivity|]; simpl; split; by auto)
          | (exists w; rewrite list_insert_id by done; split; [done|];
             split; [done|]; intros Hx; congruence)
          | (eexists; split; [reflexivity|]; simpl; split; intros Hx; congruence) ].
Qed.

Lemma watchers_ok cfg s :
  reachable cfg s → ∀ j w, watchers s !! j = Some w → watcherOk s w.
Proof.
  revert s.
  apply (reachable_preserves cfg
           (fun s => ∀ j w, watchers s !! j = Some w → watcherOk s w)); [done|].
  intros ev s s' Hok Hstep k wk Hk.
  assert (∀ w, watcherOk s w → watcherOk s' w) as Hmono.
  { intros w [H1 H2]. split; [done|]. intros Hx.
    destruct (step_control _ _ _ _ Hstep) as (_ & Hdone & _). auto. }
  destruct ev as [| | | |n|i a|j e]; simpl in Hstep.
  - case_match; [|done]. injection Hstep as <-. apply Hmono, (Hok k). exact Hk.
  - injection Hstep as <-. apply Hmono, (Hok k). exact Hk.
  - case_match; [|done]. injection Hstep as <-. apply Hmono, (Hok k). exact Hk.
  - apply Hmono, (Hok k). by case_match; injection Hstep as <-.
  - repeat case_match; try done. unfold dispatch in Hstep.
    case_match; [|done]. injection Hstep as <-. simpl in Hk.
    destruct (noWatch cfg); [by apply Hmono, (Hok k)|].
    apply lookup_app_Some in Hk as [Hk|[_ Hk]]; [by apply Hmono, (Hok k)|].
    apply list_lookup_singleton_Some in Hk as [_ <-]. by split.
  - destruct (runners s !! i) as [r|] eqn:Hr; [|done].
    destruct (runnerStep_frame _ _ _ _ _ _ Hr Hstep) as (_ & _ & _ & _ & _ & Hw & _).
    apply Hmono, (Hok k). by rewrite <- Hw.
  - destruct (watchers s !! j) as [w|] eqn:Hw; [|done].
    destruct (watcherStep_ok _ _ _ _ _ Hw (Hok _ _ Hw) Hstep) as (w' & Hws & Hw').
    rewrite Hws in Hk. destruct (decide (j = k)) as [->|Hne].
    + rewrite list_lookup_insert_eq in Hk by by eapply lookup_lt_Some.
      by injection Hk as <-.
    + rewrite list_lookup_insert_ne in Hk by done. by apply Hmono, (Hok k).
Qed.

(** A watch goroutine returns only when its process context is done (or by
    a panic, which trips the root token); once it has returned its timer is
    stopped, nothing can happen to it any more, and in particular it never
    sends its task on the work channel again. *)
Theorem returned_watcher_is_silent cfg s j w :
  reachable cfg s →
  watchers s !! j = Some w →
  wPc w = WExited →
  processDone s (wTok w) = true ∧ timer w = None ∧
  (∀ e, step cfg (WatcherDoes j e) s = Blocked) ∧
  (∀ evs s', exec cfg evs s = Next s' → watchers s' !! j = Some w).
Proof.
  intros Hreach Hw Hpc. destruct (watchers_ok cfg s Hreach j w Hw) as [Htimer Hdone].
  split; [auto|]. split; [apply Htimer; congruence|]. split.
  - intros e. simpl. rewrite Hw. unfold watcherStep. rewrite Hpc. by destruct e as [[]| | | |].
  - intros evs s'.
    apply (exec_preserves cfg (fun s' => watchers s' !! j = Some w)); [|done].
    intros ev s1 s2 H1 Hstep. destruct ev as [| | | |n|i a|j' e]; simpl in Hstep.
    + case_match; [|done]. by injection Hstep as <-.
    + by injection Hstep as <-.
    + case_match; [|done]. by injection Hstep as <-.
    + by case_match; injection Hstep as <-.
    + repeat case_match; try done. unfold dispatch in Hstep.
      case_match; [|done]. injection Hstep as <-. simpl.
      destruct (noWatch cfg); [done|]. by apply lookup_app_l_Some.
    + destruct (runners s1 !! i) as [r|] eqn:Hr; [|done].
      destruct (runnerStep_frame _ _ _ _ _ _ Hr Hstep) as (_ & _ & _ & _ & _ & -> & _).
      done.
    + destruct (decide (j' = j)) as [->|Hne].
      * rewrite H1 in Hstep. unfold watcherStep in Hstep. rewrite Hpc in Hstep.
        by destruct e as [[]| | | |].
      * destruct (watchers s1 !! j') as [w'|] eqn:Hw'; [|done].
        destruct (watcherStep_frame _ _ _ _ _ Hw' Hstep) as (_ & _ & _ & w2 & -> & _).
        by rewrite list_lookup_insert_ne.
Qed.

Lemma returned_watcher_is_silent_witness :
  reachable watched (stateAfter watched (watchedStarted ++
    [WatcherDoes 0 (FsEvent Write); Signal; WatcherDoes 0 CtxDone])%list) ∧
  (∀ e, step watched (WatcherDoes 0 e)
          (stateAfter watched (watchedStarted ++
             [WatcherDoes 0 (FsEvent Write); Signal; WatcherDoes 0 CtxDone])%list)
        = Blocked).
Proof.
  assert (reachable watched (stateAfter watched (watchedStarted ++
    [WatcherDoes 0 (FsEvent Write); Signal; WatcherDoes 0 CtxDone])%list)) as H.
  { apply reachable_stateAfter. eexists. vm_compute. reflexivity. }
  split; [exact H|].
  refine (proj1 (proj2 (proj2
    (returned_watcher_is_silent watched _ 0
       (set_timer None (set_wPc WExited
          (newWatcher (withWatch ["main.go"] (job "build" [])) 0))) H _ eq_refl)))).
  vm_compute. reflexivity.
Defined.

(** ** How the runners move *)

(** What the actions other than a runner's do to the runners, the gates and
    the registry. *)
Lemma step_runners cfg ev s s' :
  step cfg ev s = Next s' →
  match ev with
  | RunnerDoes i a => True
  | Dispatch k =>
      locked s' = locked s ∧ permits s' = permits s ∧ stop s' = stop s ∧
      ∃ t, work s !! k = Some t ∧
           runners s' = (runners s ++ [newRunner t (length (runners s))])%list
  | _ =>
      locked s' = locked s ∧ permits s' = permits s ∧ stop s' = stop s ∧
      runners s' = runners s
  end.
Proof.
  destruct ev as [| | | |k|i a|j e]; simpl; try done.
  - case_match; [|done]. by intros [= <-].
  - by intros [= <-].
  - case_match; [|done]. by intros [= <-].
  - case_match; by intros [= <-].
  - case_match; [done|]. destruct (work s !! k) as [t|] eqn:Hk; [|done].
    unfold dispatch. case_match; [|done]. intros [= <-]. simpl.
    repeat split; try done. by exists t.
  - destruct (watchers s !! j) as [w|] eqn:Hw; [|done].
    watcher_cases w e; by intros [= <-].
Qed.

(** A property of single runners that holds of a fresh runner and that no
    action of the runner breaks holds of every runner of every state the
    supervisor reaches. *)
Lemma runners_local cfg (Q : Runner → Prop) :
  (∀ t tok, Q (newRunner t tok)) →
  (∀ i r a s s' r',
     runners s !! i = Some r → Q r →
     runnerStep cfg i r a s = Next s' → runners s' !! i = Some r' → Q r') →
  ∀ s, reachable cfg s → ∀ i r, runners s !! i = Some r → Q r.
Proof.
  intros Hnew Hstep.
  apply (reachable_preserves cfg (fun s => ∀ i r, runners s !! i = Some r → Q r)).
  { by intros i r Hr. }
  intros ev s s' HQ Hev k rk Hk. pose proof (step_runners _ _ _ _ Hev) as Hrs.
  destruct ev as [| | | |n|i a|j e];
    try (destruct Hrs as (_ & _ & _ & Hrs); rewrite Hrs in Hk; by eapply HQ).
  - destruct Hrs as (_ & _ & _ & t & _ & Hrs). rewrite Hrs in Hk.
    apply lookup_app_Some in Hk as [Hk|[_ Hk]]; [by eapply HQ|].
    apply list_lookup_singleton_Some in Hk as [_ <-]. apply Hnew.
  - simpl in Hev. destruct (runners s !! i) as [r|] eqn:Hr; [|done].
    destruct (decide (i = k)) as [->|Hne];
      [exact (Hstep _ _ _ _ _ _ Hr (HQ _ _ Hr) Hev Hk)|].
    destruct (runnerStep_frame _ _ _ _ _ _ Hr Hev) as (r' & Hrs' & _).
    rewrite Hrs', list_lookup_insert_ne in Hk by done. by eapply HQ.
Qed.

(** A runner of a task with restart policy Never stays within [neverOk]. *)
Lemma runnerStep_never cfg i r a s s' r' :
  runners s !! i = Some r →
  (GetRestartPolicy (rTask r) = "Never" → neverOk r) →
  runnerStep cfg i r a s = Next s' →
  runners s' !! i = Some r' →
  GetRestartPolicy (rTask r') = "Never" → neverOk r'.
Proof.
  intros Hr Hok Hstep Hr' HN.
  destruct (runnerStep_frame _ _ _ _ _ _ Hr Hstep) as (r2 & Hrs & Ht & _).
  assert (rTask r' = rTask r) as Ht'.
  { rewrite Hrs, list_lookup_insert_eq in Hr' by by eapply lookup_lt_Some.
    by injection Hr' as <-. }
  rewrite Ht' in HN. specialize (Hok HN). clear Hrs Ht r2 Ht'.
  unfold neverOk in *. revert Hok Hstep Hr'.
  unfold runnerStep, afterRun, restartDecision. rewrite HN.
  change ("Never" =? "Never") with true. cbv iota.
  runner_cases r a; intros Hok Hstep Hr'; simplify_eq; runner_after Hr Hr';
    simpl; intuition (try congruence; try lia).
Qed.

(** Within one dispatch, a task with restart policy Never is run at most
    once: its runner enters [prc.Run] at most one time, and when that run
    has returned, however it ended, the runner has returned too. *)
Theorem never_policy_runs_once cfg s i r :
  reachable cfg s →
  runners s !! i = Some r →
  GetRestartPolicy (rTask r) = "Never" →
  (rStarts r ≤ 1)%nat ∧ (rStarts r = 1 → rPc r = PcRunning ∨ rPc r = PcExited).
Proof.
  intros Hreach Hr HN.
  assert (neverOk r) as [[-> _]|[-> Hpc]]; [|split; [lia|done]..].
  revert HN.
  apply (runners_local cfg
           (fun r => GetRestartPolicy (rTask r) = "Never" → neverOk r))
    with (s := s) (i := i); try done.
  - intros t tok _. left. simpl. split; [reflexivity|discriminate].
  - intros j rj a s1 s2 r' Hj Hok Hstep Hr'.
    exact (runnerStep_never cfg j rj a s1 s2 r' Hj Hok Hstep Hr').
Qed.

Lemma never_policy_runs_once_witness :
  reachable chain chainFailed ∧
  (rStarts <$> runners chainFailed !! 0) = Some 1 ∧
  (rPc <$> runners chainFailed !! 0) = Some PcExited.
Proof.
  assert (reachable chain chainFailed) as H.
  { apply reachable_stateAfter. eexists. vm_compute. reflexivity. }
  assert (runners chainFailed !! 0 =
          Some (set_rStarts 1 (set_rPc PcExited (newRunner (job "a" []) 0)))) as Hr
    by (vm_compute; reflexivity).
  split; [exact H|]. rewrite Hr. split; [done|].
  destruct (never_policy_runs_once chain chainFailed 0 _ H Hr eq_refl) as [_ Hpc].
  by destruct (Hpc eq_refl) as [Hx|Hx].
Defined.

(** ** Mutexes and semaphores *)

(** What a runner action does to the runner's own gates and to the
    registries of held mutexes and free permits. *)
Lemma runnerStep_gates cfg i r a s s' r' :
  runners s !! i = Some r →
  gatesOk r →
  runnerStep cfg i r a s = Next s' →
  runners s' !! i = Some r' →
  rTask r' = rTask r ∧ gatesOk r' ∧
  mutexMove (Mutex (rTask r)) (rMutex r) (rMutex r') (locked s) (locked s') ∧
  semMove (Semaphore (rTask r)) (rSem r) (rSem r') (permits s) (permits s').
Proof.
  intros Hr [Hm Hs]. unfold gatesOk. revert Hm Hs.
  runner_cases r a; intros Hm Hs Hstep Hr'; simplify_eq; runner_after Hr Hr';
    simpl in *;
    repeat match goal with
           | H : (_ =? _) = _ |- _ => rewrite H in *
           end;
    simpl in *; simplify_eq;
    try (rewrite Hm, Hs; simpl);
    try (repeat split; try done; eauto; fail).
  all: try match goal with H : rPc _ = _ |- _ => rewrite ?H end.
  all: repeat match goal with
              | |- context [?x =? ""] => destruct (x =? "") eqn:?
              end;
    simpl in *; repeat split; try done; eauto.
Qed.

Lemma gates_ok cfg s : reachable cfg s → ∀ i r, runners s !! i = Some r → gatesOk r.
Proof.
  apply (runners_local cfg gatesOk); [by intros t tok|].
  intros i r a s1 s2 r' Hr Hok Hstep Hr'.
  by destruct (runnerStep_gates _ _ _ _ _ _ _ Hr Hok Hstep Hr') as (_ & ? & _).
Qed.

Lemma lookup_insert_cases {A} (l : list A) i k x y :
  <[i := x]> l !! k = Some y → (k = i ∧ y = x) ∨ (k ≠ i ∧ l !! k = Some y).
Proof.
  intros H. destruct (decide (i = k)) as [->|Hne].
  - left. apply list_lookup_insert_Some in H as [(_ & -> & _)|[? _]]; done.
  - right. rewrite list_lookup_insert_ne in H by done. done.
Qed.

(** One runner changes, by the rules of [mutexMove]: the mutexes stay in
    order. *)
Lemma mutexes_runner s s' i r r' :
  mutexesOk s →
  runners s !! i = Some r →
  runners s' = <[i := r']> (runners s) →
  rTask r' = rTask r →
  gatesOk r' →
  mutexMove (Mutex (rTask r)) (rMutex r) (rMutex r') (locked s) (locked s') →
  mutexesOk s'.
Proof.
  intros [G A B D] Hr Hrs Ht Hg Hmove.
  assert (i < length (runners s)) as Hi by by eapply lookup_lt_Some.
  assert (runners s' !! i = Some r') as Hi'
    by (rewrite Hrs; by apply list_lookup_insert_eq).
  assert (∀ k x, k ≠ i → runners s !! k = Some x → runners s' !! k = Some x) as Hold.
  { intros k x Hk Hx. rewrite Hrs. by rewrite list_lookup_insert_ne. }
  assert (∀ k x, runners s' !! k = Some x →
                 (k = i ∧ x = r') ∨ (k ≠ i ∧ runners s !! k = Some x)) as Hnew.
  { intros k x. rewrite Hrs. apply lookup_insert_cases. }
  unfold mutexMove in Hmove.
  destruct (rMutex r) eqn:Hb, (rMutex r') eqn:Hb'.
  - (* held before and after *)
    split.
    + intros k x Hx. destruct (Hnew _ _ Hx) as [[-> ->]|[_ Hx']]; eauto.
    + intros k x Hx Hmx. rewrite Hmove.
      destruct (Hnew _ _ Hx) as [[-> ->]|[_ Hx']]; [|by eauto].
      rewrite Ht. by eapply A.
    + intros k l x y Hx Hy Hmx Hmy Heq.
      destruct (Hnew _ _ Hx) as [[-> ->]|[Hk Hx']],
               (Hnew _ _ Hy) as [[-> ->]|[Hl Hy']]; try done.
      * rewrite Ht in Heq. by eapply (B i l r y).
      * rewrite Ht in Heq. by eapply (B k i x r).
      * by eapply (B k l x y).
    + intros m Hm. rewrite Hmove in Hm. destruct (D m Hm) as (k & x & Hx & Hmx & Hl).
      destruct (decide (k = i)) as [->|Hk].
      * exists i, r'. rewrite Hx in Hr. injection Hr as ->. by rewrite Ht.
      * exists k, x. eauto.
  - (* released *)
    split.
    + intros k x Hx. destruct (Hnew _ _ Hx) as [[-> ->]|[_ Hx']]; eauto.
    + intros k x Hx Hmx. rewrite Hmove.
      destruct (Hnew _ _ Hx) as [[-> ->]|[Hk Hx']]; [congruence|].
      apply elem_of_difference. split; [by eapply A|].
      intros Heq%elem_of_singleton. destruct Hk. by eapply (B k i x r).
    + intros k l x y Hx Hy Hmx Hmy Heq.
      destruct (Hnew _ _ Hx) as [[-> ->]|[Hk Hx']],
               (Hnew _ _ Hy) as [[-> ->]|[Hl Hy']]; try congruence.
      by eapply (B k l x y).
    + intros m Hm. rewrite Hmove in Hm. apply elem_of_difference in Hm as [Hm Hne].
      destruct (D m Hm) as (k & x & Hx & Hmx & Hl).
      destruct (decide (k = i)) as [->|Hk].
      * rewrite Hx in Hr. injection Hr as ->. destruct Hne. by apply elem_of_singleton.
      * exists k, x. eauto.
  - (* taken *)
    destruct Hmove as [Hfree Hmove]. split.
    + intros k x Hx. destruct (Hnew _ _ Hx) as [[-> ->]|[_ Hx']]; eauto.
    + intros k x Hx Hmx. rewrite Hmove.
      destruct (Hnew _ _ Hx) as [[-> ->]|[Hk Hx']].
      * rewrite Ht. apply elem_of_union. left. by apply elem_of_singleton.
      * apply elem_of_union. right. by eapply A.
    + intros k l x y Hx Hy Hmx Hmy Heq.
      destruct (Hnew _ _ Hx) as [[-> ->]|[Hk Hx']],
               (Hnew _ _ Hy) as [[-> ->]|[Hl Hy']]; try done.
      * destruct Hfree. rewrite <- Ht, Heq. by eapply A.
      * destruct Hfree. rewrite <- Ht, <- Heq. by eapply A.
      * by eapply (B k l x y).
    + intros m Hm. rewrite Hmove in Hm. apply elem_of_union in Hm as [Hm|Hm].
      * apply elem_of_singleton in Hm as ->. exists i, r'. by rewrite Ht.
      * destruct (D m Hm) as (k & x & Hx & Hmx & Hl).
        destruct (decide (k = i)) as [->|Hk]; [congruence|].
        exists k, x. eauto.
  - (* not held before or after *)
    split.
    + intros k x Hx. destruct (Hnew _ _ Hx) as [[-> ->]|[_ Hx']]; eauto.
    + intros k x Hx Hmx. rewrite Hmove.
      destruct (Hnew _ _ Hx) as [[-> ->]|[_ Hx']]; [congruence|by eauto].
    + intros k l x y Hx Hy Hmx Hmy Heq.
      destruct (Hnew _ _ Hx) as [[-> ->]|[Hk Hx']],
               (Hnew _ _ Hy) as [[-> ->]|[Hl Hy']]; try congruence.
      by eapply (B k l x y).
    + intros m Hm. rewrite Hmove in Hm. destruct (D m Hm) as (k & x & Hx & Hmx & Hl).
      destruct (decide (k = i)) as [->|Hk]; [congruence|].
      exists k, x. eauto.
Qed.

Lemma mutexes_new s s' t tok :
  mutexesOk s →
  locked s' = locked s →
  runners s' = (runners s ++ [newRunner t tok])%list →
  mutexesOk s'.
Proof.
  intros [G A B D] HL Hrs.
  assert (∀ k x, runners s' !! k = Some x →
                 runners s !! k = Some x ∨ x = newRunner t tok) as Hnew.
  { intros k x. rewrite Hrs. intros [?|[_ Hx]]%lookup_app_Some; [by left|].
    apply list_lookup_singleton_Some in Hx as [_ <-]. by right. }
  split.
  - intros k x Hx. destruct (Hnew _ _ Hx) as [?| ->]; [by eauto|done].
  - intros k x Hx Hmx. rewrite HL.
    destruct (Hnew _ _ Hx) as [?| ->]; [by eauto|done].
  - intros k l x y Hx Hy Hmx Hmy Heq.
    destruct (Hnew _ _ Hx) as [?| ->], (Hnew _ _ Hy) as [?| ->]; try done.
    by eapply (B k l x y).
  - intros m Hm. rewrite HL in Hm. destruct (D m Hm) as (k & x & Hx & Hmx & Hl).
    exists k, x. rewrite Hrs. split; [|done]. apply lookup_app_Some. by left.
Qed.

Lemma mutexes_same s s' :
  mutexesOk s → locked s' = locked s → runners s' = runners s → mutexesOk s'.
Proof.
  intros [G A B D] HL Hrs. split; rewrite ?HL, ?Hrs; done.
Qed.

Lemma holders_app l rs x :
  holders l (rs ++ [x]) = holders l rs + (if holds l x then 1 else 0).
Proof.
  unfold holders. rewrite List.filter_app, length_app. simpl.
  by destruct (holds l x).
Qed.

Lemma holders_insert l rs i r r' :
  rs !! i = Some r →
  holders l (<[i := r']> rs) + (if holds l r then 1 else 0) =
  holders l rs + (if holds l r' then 1 else 0).
Proof.
  unfold holders. revert i. induction rs as [|x rs IH]; intros [|i] Hr; try done.
  - simpl in *. injection Hr as ->.
    destruct (holds l r), (holds l r'); simpl; lia.
  - simpl in *. specialize (IH i Hr). destruct (holds l x); simpl; lia.
Qed.

(** One runner changes, by the rules of [semMove]: the permits stay in
    order. *)
Lemma semaphores_runner cfg s s' i r r' :
  semaphoresOk cfg s →
  runners s !! i = Some r →
  runners s' = <[i := r']> (runners s) →
  rTask r' = rTask r →
  semMove (Semaphore (rTask r)) (rSem r) (rSem r') (permits s) (permits s') →
  semaphoresOk cfg s'.
Proof.
  intros [A B] Hr Hrs Ht Hmove.
  assert (∀ k x, runners s' !! k = Some x →
                 (k = i ∧ x = r') ∨ (k ≠ i ∧ runners s !! k = Some x)) as Hnew.
  { intros k x. rewrite Hrs. apply lookup_insert_cases. }
  pose proof (fun l => holders_insert l _ _ _ r' Hr) as Hcount.
  unfold semMove in Hmove. unfold holds in Hcount. rewrite Ht in Hcount.
  destruct (rSem r) eqn:Hb, (rSem r') eqn:Hb'; simpl in Hcount.
  - split.
    + intros k x Hx Hsx. rewrite Hmove.
      destruct (Hnew _ _ Hx) as [[-> ->]|[_ Hx']]; [|by eauto].
      rewrite Ht. by eapply A.
    + intros l. rewrite Hrs, Hmove, <- B. specialize (Hcount l).
      destruct (Semaphore (rTask r) =? l); lia.
  - split.
    + intros k x Hx Hsx. rewrite Hmove. apply lookup_alter_is_Some.
      destruct (Hnew _ _ Hx) as [[-> ->]|[_ Hx']]; [congruence|by eauto].
    + intros l. rewrite Hrs, Hmove, <- B. specialize (Hcount l).
      destruct (A _ _ Hr Hb) as [n Hn]. unfold free.
      destruct (String.eqb_spec (Semaphore (rTask r)) l) as [Heq|Hne]; [subst l|].
      * rewrite lookup_alter_eq, Hn. simpl. lia.
      * rewrite lookup_alter_ne by done. lia.
  - destruct Hmove as (n & Hn & Hmove). split.
    + intros k x Hx Hsx. rewrite Hmove. apply lookup_insert_is_Some'.
      destruct (Hnew _ _ Hx) as [[-> ->]|[_ Hx']]; [left; by rewrite Ht|right; by eauto].
    + intros l. rewrite Hrs, Hmove, <- B. specialize (Hcount l). unfold free.
      destruct (String.eqb_spec (Semaphore (rTask r)) l) as [Heq|Hne]; [subst l|].
      * rewrite lookup_insert_eq, Hn. simpl. lia.
      * rewrite lookup_insert_ne by done. lia.
  - split.
    + intros k x Hx Hsx. rewrite Hmove.
      destruct (Hnew _ _ Hx) as [[-> ->]|[_ Hx']]; [congruence|by eauto].
    + intros l. rewrite Hrs, Hmove, <- B. specialize (Hcount l). lia.
Qed.

Lemma semaphores_new cfg s s' t tok :
  semaphoresOk cfg s →
  permits s' = permits s →
  runners s' = (runners s ++ [newRunner t tok])%list →
  semaphoresOk cfg s'.
Proof.
  intros [A B] HP Hrs. split.
  - intros k x. rewrite Hrs, HP. intros [?|[_ Hx]]%lookup_app_Some; [by eauto|].
    by apply list_lookup_singleton_Some in Hx as [_ <-].
  - intros l. rewrite Hrs, HP, holders_app, <- B. unfold holds. simpl. lia.
Qed.

Lemma semaphores_same cfg s s' :
  semaphoresOk cfg s → permits s' = permits s → runners s' = runners s →
  semaphoresOk cfg s'.
Proof.
  intros [A B] HP Hrs. split; rewrite ?HP, ?Hrs; done.
Qed.

(** The mutexes and the semaphores are in order in every state the
    supervisor can reach. *)
Lemma gates_invariant cfg s :
  reachable cfg s → mutexesOk s ∧ semaphoresOk cfg s.
Proof.
  apply (reachable_preserves cfg (fun s => mutexesOk s ∧ semaphoresOk cfg s)).
  { split; split; by simpl. }
  intros ev s1 s2 [Hmu Hse] Hev. pose proof (step_runners _ _ _ _ Hev) as Hrs.
  destruct ev as [| | | |n|i a|j e];
    try (destruct Hrs as (HL & HP & _ & Hrs);
         split; [by eapply mutexes_same|by eapply semaphores_same]).
  - destruct Hrs as (HL & HP & _ & t & _ & Hrs).
    split; [by eapply mutexes_new|by eapply semaphores_new].
  - simpl in Hev. destruct (runners s1 !! i) as [r|] eqn:Hr; [|done].
    destruct (runnerStep_frame _ _ _ _ _ _ Hr Hev) as (r' & Hrs' & _).
    assert (runners s2 !! i = Some r') as Hr'.
    { rewrite Hrs'. apply list_lookup_insert_eq. by eapply lookup_lt_Some. }
    destruct (runnerStep_gates _ _ _ _ _ _ _ Hr (mu_gates _ Hmu _ _ Hr) Hev Hr')
      as (Ht & Hg & Hm & Hs).
    split; [by eapply mutexes_runner|by eapply semaphores_runner].
Qed.

Lemma gates_past (r : Runner) :
  gatesOk r →
  (Mutex (rTask r) ≠ "" → rMutex r = pastMutex (rPc r)) ∧
  (Semaphore (rTask r) ≠ "" → rSem r = pastSemaphore (rPc r)).
Proof.
  intros [-> ->]. split; intros Hne.
  - destruct (String.eqb_spec (Mutex (rTask r)) ""); [done|]. apply andb_true_r.
  - destruct (String.eqb_spec (Semaphore (rTask r)) ""); [done|]. apply andb_true_r.
Qed.

Lemma holders_none l rs :
  (∀ i r, rs !! i = Some r → rSem r = false) → holders l rs = 0.
Proof.
  unfold holders. induction rs as [|x rs IH]; intros H; [done|]. simpl.
  unfold holds at 1. rewrite (H 0 x eq_refl). simpl. apply IH.
  intros i r Hr. exact (H (S i) r Hr).
Qed.

(** Of the runners whose task names the mutex [m], at most one stands
    between [mutex.Lock()] and its return: two that do are one and the same
    goroutine. *)
Theorem mutex_section_is_exclusive cfg s i j ri rj :
  reachable cfg s →
  runners s !! i = Some ri →
  runners s !! j = Some rj →
  Mutex (rTask ri) ≠ "" →
  Mutex (rTask ri) = Mutex (rTask rj) →
  pastMutex (rPc ri) = true →
  pastMutex (rPc rj) = true →
  i = j.
Proof.
  intros Hreach Hi Hj Hne Heq Hpi Hpj.
  destruct (gates_invariant _ _ Hreach) as [Hmu _].
  apply (mu_excl _ Hmu i j ri rj); try done.
  - destruct (gates_past ri (mu_gates _ Hmu _ _ Hi)) as [H _]. by rewrite H.
  - destruct (gates_past rj (mu_gates _ Hmu _ _ Hj)) as [H _].
    rewrite H; [done|congruence].
Qed.

Lemma mutex_section_is_exclusive_witness :
  reachable contended contendedHandover ∧
  (rPc <$> runners contendedHandover !! 0) = Some PcExited ∧
  (rPc <$> runners contendedHandover !! 1) = Some PcRunning ∧
  locked contendedHandover = {[ "m" ]}.
Proof.
  assert (reachable contended contendedHandover) as H.
  { apply reachable_stateAfter. eexists. vm_compute. reflexivity. }
  assert (runners contendedHandover !! 1 =
          Some (set_rMutex true (set_rStarts 1 (set_rPc PcRunning
                  (newRunner (withMutex "m" (job "y" [])) 1))))) as Hr
    by (vm_compute; reflexivity).
  split; [exact H|]. split; [by vm_compute|]. split; [by rewrite Hr|].
  pose proof (mutex_section_is_exclusive contended contendedHandover 1 1 _ _
                H Hr Hr ltac:(discriminate) eq_refl eq_refl eq_refl) as _.
  by vm_compute.
Defined.

(** Every return of a runner releases what the runner took: when all the
    runners have returned, no mutex is locked and every semaphore has its
    permits back. *)
Theorem returned_runners_hold_nothing cfg s :
  reachable cfg s →
  (∀ i r, runners s !! i = Some r → rPc r = PcExited) →
  locked s = ∅ ∧ ∀ l, free l (permits s) = free l (semaphoresCap cfg).
Proof.
  intros Hreach Hex. destruct (gates_invariant _ _ Hreach) as [Hmu Hse].
  assert (∀ i r, runners s !! i = Some r → rMutex r = false ∧ rSem r = false) as Hno.
  { intros i r Hr. destruct (mu_gates _ Hmu _ _ Hr) as [-> ->].
    by rewrite (Hex _ _ Hr). }
  split.
  - apply set_eq. intros m. split; [|by intros ?%elem_of_empty].
    intros Hm. destruct (mu_owner _ Hmu m Hm) as (i & r & Hr & Hb & _).
    destruct (Hno _ _ Hr) as [? _]. congruence.
  - intros l. rewrite <- (se_sum _ _ Hse l), holders_none; [done|].
    intros i r Hr. by destruct (Hno _ _ Hr).
Qed.

Lemma returned_runners_hold_nothing_witness :
  reachable gated gatedReturned ∧
  length (runners gatedReturned) = 2 ∧
  locked gatedReturned = ∅ ∧
  free "s" (permits gatedReturned) = 1.
Proof.
  assert (reachable gated gatedReturned) as H.
  { apply reachable_stateAfter. eexists. vm_compute. reflexivity. }
  assert (∀ i r, runners gatedReturned !! i = Some r → rPc r = PcExited) as Hex.
  { intros [|[|i]] r; vm_compute; by intros [= <-]. }
  destruct (returned_runners_hold_nothing gated gatedReturned H Hex) as [HL HP].
  split; [exact H|]. split; [by vm_compute|]. split; [exact HL|].
  rewrite (HP "s"). by vm_compute.
Defined.

(** A semaphore admits no more runners than it has permits: the runners
    that stand between [semaphore.Acquire] and their return, for one label,
    are at most as many as the capacity configured for the label. *)
Theorem semaphore_bounds_section cfg s l :
  reachable cfg s →
  l ≠ "" →
  (length (List.filter (inside l) (runners s)) ≤ free l (semaphoresCap cfg))%nat.
Proof.
  intros Hreach Hne. destruct (gates_invariant _ _ Hreach) as [Hmu Hse].
  rewrite <- (se_sum _ _ Hse l). unfold holders.
  rewrite (List.filter_ext_in (inside l) (holds l)); [lia|].
  intros r [i Hr]%list_elem_of_In%list_elem_of_lookup_1.
  unfold inside, holds. destruct (String.eqb_spec (Semaphore (rTask r)) l) as [Heq|];
    [|by rewrite !andb_false_r].
  destruct (gates_past r (mu_gates _ Hmu _ _ Hr)) as [_ H].
  rewrite H by congruence. by rewrite andb_true_r.
Qed.

Lemma semaphore_bounds_section_witness :
  reachable gated gatedCancelled ∧
  length (List.filter (inside "s") (runners gatedCancelled)) = 1 ∧
  free "s" (semaphoresCap gated) = 1.
Proof.
  assert (reachable gated gatedCancelled) as H.
  { apply reachable_stateAfter. eexists. vm_compute. reflexivity. }
  pose proof (semaphore_bounds_section gated gatedCancelled "s" H
                ltac:(discriminate)) as _.
  split; [exact H|]. split; by vm_compute.
Defined.

(** ** The registry of cancel functions *)

(** Only a runner cancels a per-process token. *)
Lemma step_procDone cfg ev s s' :
  step cfg ev s = Next s' →
  match ev with
  | RunnerDoes i a => True
  | _ => procDone s' = procDone s
  end.
Proof.
  destruct ev as [| | | |k|i a|j e]; simpl; try done.
  - case_match; [|done]. by intros [= <-].
  - by intros [= <-].
  - case_match; [|done]. by intros [= <-].
  - case_match; by intros [= <-].
  - case_match; [done|]. destruct (work s !! k) as [t|] eqn:Hk; [|done].
    unfold dispatch. case_match; [|done]. by intros [= <-].
  - destruct (watchers s !! j) as [w|] eqn:Hw; [|done].
    watcher_cases w e; by intros [= <-].
Qed.

(** What a runner action does to the registry and to the tokens: the
    preempt step cancels what is registered under the task's name and
    registers the runner's own token; no other step touches either. *)
Lemma runnerStep_registry cfg i r a s s' r' :
  runners s !! i = Some r →
  runnerStep cfg i r a s = Next s' →
  runners s' !! i = Some r' →
  rTask r' = rTask r ∧ rTok r' = rTok r ∧ rPc r' ≠ PcPreempt ∧
  ((stop s' = stop s ∧ procDone s' = procDone s) ∨
   (rPc r = PcPreempt ∧
    stop s' = <[Name (rTask r) := rTok r]> (stop s) ∧
    match stop s !! Name (rTask r) with
    | Some f => procDone s' = {[f]} ∪ procDone s
    | None => procDone s' = procDone s
    end)).
Proof.
  intros Hr.
  runner_cases r a; intros Hstep Hr'; simplify_eq; runner_after Hr Hr';
    simpl in *; repeat split; try done; try congruence;
    try (by left); try (by right).
Qed.

(** Runners stay where they are in the list, keep their task, and do not
    come back to the preempt step. *)
Lemma step_persist cfg ev s s' :
  step cfg ev s = Next s' →
  ∀ k x, runners s !! k = Some x →
         ∃ x', runners s' !! k = Some x' ∧ rTask x' = rTask x ∧
               (rPc x ≠ PcPreempt → rPc x' ≠ PcPreempt).
Proof.
  intros Hev k x Hk. pose proof (step_runners _ _ _ _ Hev) as Hrs.
  destruct ev as [| | | |n|i a|j e];
    try (destruct Hrs as (_ & _ & _ & Hrs); rewrite Hrs; by exists x).
  - destruct Hrs as (_ & _ & _ & t & _ & Hrs). rewrite Hrs. exists x.
    split; [|done]. apply lookup_app_Some. by left.
  - simpl in Hev. destruct (runners s !! i) as [r|] eqn:Hr; [|done].
    destruct (runnerStep_frame _ _ _ _ _ _ Hr Hev) as (r' & Hrs' & _).
    destruct (decide (k = i)) as [->|Hne].
    + assert (runners s' !! i = Some r') as Hr'.
      { rewrite Hrs'. apply list_lookup_insert_eq. by eapply lookup_lt_Some. }
      destruct (runnerStep_registry _ _ _ _ _ _ _ Hr Hev Hr') as (Ht & _ & Hpc & _).
      exists r'. by simplify_eq.
    + exists x. rewrite Hrs', list_lookup_insert_ne by done. done.
Qed.

Lemma preempted_persist cfg ev s s' tok :
  step cfg ev s = Next s' → preempted s tok → preempted s' tok.
Proof.
  intros Hev (r & j & r' & Hr & Hj & Hne & Hn & Hp & Hp').
  destruct (step_persist _ _ _ _ Hev _ _ Hr) as (x & Hx & Htx & Hpx).
  destruct (step_persist _ _ _ _ Hev _ _ Hj) as (y & Hy & Hty & Hpy).
  exists x, j, y. rewrite Htx, Hty. auto 10.
Qed.

(** The registry is in order, and every token cancelled on its own was
    cancelled by a later run of the same task. *)
Lemma registry_invariant cfg s :
  reachable cfg s →
  registryOk s ∧ ∀ tok, tok ∈ procDone s → preempted s tok.
Proof.
  apply (reachable_preserves cfg
           (fun s => registryOk s ∧ ∀ tok, tok ∈ procDone s → preempted s tok)).
  { split; [split|]; by simpl. }
  intros ev s1 s2 [[Htok Hstop] Hcan] Hev.
  pose proof (step_runners _ _ _ _ Hev) as Hrs.
  pose proof (step_procDone _ _ _ _ Hev) as Hpd.
  pose proof (step_persist _ _ _ _ Hev) as Hper.
  assert (∀ name tok, stop s1 !! name = Some tok →
            ∃ r, runners s2 !! tok = Some r ∧ Name (rTask r) = name ∧
                 rPc r ≠ PcPreempt) as Hstop'.
  { intros name tok Hs. destruct (Hstop _ _ Hs) as (r & Hr & Hn & Hp).
    destruct (Hper _ _ Hr) as (x & Hx & Htx & Hpx). exists x. rewrite Htx. auto. }
  destruct ev as [| | | |n|i a|j e];
    try (destruct Hrs as (_ & _ & HS & Hrs); split;
         [split; [by rewrite Hrs|by rewrite HS]
         |rewrite Hpd; intros tok Ht; by eapply preempted_persist; eauto]).
  - destruct Hrs as (_ & _ & HS & t & _ & Hrs). split; [split|].
    + intros i r. rewrite Hrs. intros [?|[Hi Hx]]%lookup_app_Some; [by eauto|].
      apply list_lookup_singleton_Some in Hx as [Hz <-]. simpl. lia.
    + by rewrite HS.
    + rewrite Hpd. intros tok Ht. by eapply preempted_persist; eauto.
  - clear Hrs Hpd. simpl in Hev. destruct (runners s1 !! i) as [r|] eqn:Hr; [|done].
    destruct (runnerStep_frame _ _ _ _ _ _ Hr Hev) as (r' & Hrs' & _).
    assert (runners s2 !! i = Some r') as Hr'.
    { rewrite Hrs'. apply list_lookup_insert_eq. by eapply lookup_lt_Some. }
    destruct (runnerStep_registry _ _ _ _ _ _ _ Hr Hev Hr')
      as (Ht & Hk & Hpc & [[HS HD]|(Hpre & HS & HD)]).
    + split; [split|].
      * intros k x. rewrite Hrs'. intros [[-> ->]|[_ Hx]]%lookup_insert_cases;
          [rewrite Hk|]; by eauto.
      * by rewrite HS.
      * rewrite HD. intros tok Ht'.
        exact (preempted_persist cfg (RunnerDoes i a) s1 s2 tok
                 ltac:(simpl; by rewrite Hr) (Hcan _ Ht')).
    + split; [split|].
      * intros k x. rewrite Hrs'. intros [[-> ->]|[_ Hx]]%lookup_insert_cases;
          [rewrite Hk|]; by eauto.
      * intros name tok. rewrite HS.
        intros [[<- <-]|[_ Hs]]%lookup_insert_Some; [|by eauto].
        exists r'. rewrite (Htok _ _ Hr), Ht. done.
      * assert (∀ tok, tok ∈ procDone s1 → preempted s2 tok) as Hold.
        { intros tok Ht'.
          exact (preempted_persist cfg (RunnerDoes i a) s1 s2 tok
                   ltac:(simpl; by rewrite Hr) (Hcan _ Ht')). }
        destruct (stop s1 !! Name (rTask r)) as [f|] eqn:Hf;
          rewrite HD; [|done].
        intros tok [->%elem_of_singleton|Ht']%elem_of_union; [|by auto].
        destruct (Hstop _ _ Hf) as (r0 & Hr0 & Hn0 & Hp0).
        destruct (Hper _ _ Hr0) as (x & Hx & Htx & Hpx).
        exists x, i, r'. rewrite Htx, Ht, Hn0. repeat split; auto.
        intros ->. congruence.
Qed.

(** A run is cancelled through its own token only by a later run of the
    same task: when the token of a runner is cancelled while the root
    context may still be live, another runner of a task with the same name
    has passed the preempt step. *)
Theorem process_cancelled_only_by_rerun cfg s tok :
  reachable cfg s →
  tok ∈ procDone s →
  ∃ r j r', runners s !! tok = Some r ∧ runners s !! j = Some r' ∧ j ≠ tok ∧
            Name (rTask r') = Name (rTask r) ∧ rPc r' ≠ PcPreempt.
Proof.
  intros Hreach Htok. destruct (registry_invariant _ _ Hreach) as [_ Hcan].
  destruct (Hcan _ Htok) as (r & j & r' & ? & ? & ? & ? & ? & ?).
  by exists r, j, r'.
Qed.

Lemma process_cancelled_only_by_rerun_witness :
  reachable watched watchedTwice ∧
  procDone watchedTwice = {[ 0 ]} ∧
  (Name ∘ rTask <$> runners watchedTwice) = ["build"; "build"].
Proof.
  assert (reachable watched watchedTwice) as H.
  { apply reachable_stateAfter. eexists. vm_compute. reflexivity. }
  assert (procDone watchedTwice = {[ 0 ]}) as Hd by by vm_compute.
  pose proof (process_cancelled_only_by_rerun watched watchedTwice 0 H
                ltac:(rewrite Hd; by apply elem_of_singleton)) as _.
  split; [exact H|]. split; [exact Hd|]. by vm_compute.
Defined.

(** What is registered under a task's name is the cancel function of a run
    of that very task, one that has passed the preempt step; so the preempt
    step of a task never cancels the run of another task. *)
Theorem registry_names_own_run cfg s name tok :
  reachable cfg s →
  stop s !! name = Some tok →
  ∃ r, runners s !! tok = Some r ∧ rTok r = tok ∧ Name (rTask r) = name ∧
       rPc r ≠ PcPreempt.
Proof.
  intros Hreach Hs. destruct (registry_invariant _ _ Hreach) as [[Htok Hstop] _].
  destruct (Hstop _ _ Hs) as (r & Hr & Hn & Hp). exists r.
  by rewrite (Htok _ _ Hr).
Qed.

Lemma registry_names_own_run_witness :
  reachable watched watchedTwice ∧
  stop watchedTwice !! "build" = Some 1 ∧
  (rPc <$> runners watchedTwice !! 1) = Some PcRunning.
Proof.
  assert (reachable watched watchedTwice) as H.
  { apply reachable_stateAfter. eexists. vm_compute. reflexivity. }
  assert (stop watchedTwice !! "build" = Some 1) as Hs by by vm_compute.
  pose proof (registry_names_own_run watched watchedTwice "build" 1 H Hs) as _.
  split; [exact H|]. split; [exact Hs|]. by vm_compute.
Defined.
